(** * aws-init: secret resolution and process supervision

    A shallow embedding of the two Go files of aws-init that carry its
    logic: the secret resolver ([resolveSecrets], [resolveSecret],
    [getSecret], [getParameter]) and the process executor ([execute],
    [handleSignals], [forwardSignal]).

    Go strings are byte strings, modelled by [string]; Go integers and
    durations by [Z]; Go's two-valued returns [(v, err)] by pairs whose
    second component is an [option error] ([None] is a nil error).  Calls
    that leave the program (the AWS SDK, the context, encoding/json, the
    operating system) are answered by an explicit environment and recorded
    in a history, so that "no fetch was made" is a statement about the
    history. *)

From Stdlib Require Import ZArith Ascii String Bool Lia.
From stdpp Require Import base option list strings pretty gmap.

Local Open Scope Z_scope.

(** ** The functions of Go's [strings] package that the program calls *)

Module strings.

(** [s[n:]] on bytes. *)
Fixpoint drop_bytes (n : nat) (s : string) : string :=
  match n, s with
  | O, _ => s
  | S n', String _ s' => drop_bytes n' s'
  | S _, EmptyString => EmptyString
  end.

(** [s[:n]] on bytes. *)
Fixpoint take_bytes (n : nat) (s : string) : string :=
  match n, s with
  | O, _ => EmptyString
  | S n', String c s' => String c (take_bytes n' s')
  | S _, EmptyString => EmptyString
  end.

(** [strings.HasPrefix(s, prefix)]: s begins with prefix. *)
Fixpoint HasPrefix (s prefix : string) {struct prefix} : bool :=
  match prefix with
  | EmptyString => true
  | String p prefix' =>
      match s with
      | EmptyString => false
      | String c s' => Ascii.eqb c p && HasPrefix s' prefix'
      end
  end.

(** [strings.TrimPrefix(s, prefix)]: s without the leading prefix; s
    itself when it does not start with prefix. *)
Definition TrimPrefix (s prefix : string) : string :=
  if HasPrefix s prefix then drop_bytes (String.length prefix) s else s.

(** [strings.Index(s, substr)]: index of the first instance of substr in
    s, or -1. *)
Fixpoint Index (s substr : string) : Z :=
  if HasPrefix s substr then 0
  else match s with
       | EmptyString => -1
       | String _ s' =>
           let i := Index s' substr in
           if i <? 0 then -1 else i + 1
       end.

(** [strings.Contains(s, substr)] is [Index(s, substr) >= 0]. *)
Definition Contains (s substr : string) : bool := 0 <=? Index s substr.

(** [strings.Cut(s, sep)]: slices s around the first instance of sep. *)
Definition Cut (s sep : string) : string * string * bool :=
  let i := Index s sep in
  if 0 <=? i
  then (take_bytes (Z.to_nat i) s,
        drop_bytes (Z.to_nat i + String.length sep) s, true)
  else (s, EmptyString, false).

(** [strings.SplitN(s, sep, n)] for a non-empty sep and n >= 0: at most n
    substrings, the last one the unsplit remainder; nil when n is 0. *)
Fixpoint SplitN (s sep : string) (n : nat) : list string :=
  match n with
  | O => []
  | S O => [s]
  | S n' =>
      let i := Index s sep in
      if i <? 0 then [s]
      else take_bytes (Z.to_nat i) s
           :: SplitN (drop_bytes (Z.to_nat i + String.length sep) s) sep n'
  end.

End strings.

(** ** Errors

    Every error value the two files build with [fmt.Errorf], plus the
    opaque errors handed back by libraries. *)

#[warnings="-register-all"]
Inductive error : Type :=
  | External (msg : string)
      (* an error value of the AWS SDK, the context or encoding/json *)
  | FailedToLoadConfig (cause : error)
      (* "failed to load AWS config: %w" *)
  | FailedToResolve (name : string) (cause : error)
      (* "failed to resolve %s: %w" *)
  | EmptyReference
      (* "empty secret reference" *)
  | EmptyName
      (* "empty secret name" *)
  | NotJSON (secretName : string) (cause : error)
      (* "secret %s is not valid JSON: %w" *)
  | KeyNotFound (key secretName : string)
      (* "key %s not found in secret %s" *)
  | BinarySecret
      (* "binary secrets not supported" *)
  | ParameterNoValue
      (* "parameter has no value" *)
  | FailedAfterRetries (n : Z) (lastErr : option error).
      (* "failed after %d retries: %w" *)

(** [%d] of an int. *)
Definition format_d (n : Z) : string := pretty n.

(** [err.Error()]. *)
Fixpoint Error (e : error) : string :=
  match e with
  | External msg => msg
  | FailedToLoadConfig cause => "failed to load AWS config: " +:+ Error cause
  | FailedToResolve name cause =>
      "failed to resolve " +:+ name +:+ ": " +:+ Error cause
  | EmptyReference => "empty secret reference"
  | EmptyName => "empty secret name"
  | NotJSON secretName cause =>
      "secret " +:+ secretName +:+ " is not valid JSON: " +:+ Error cause
  | KeyNotFound key secretName =>
      "key " +:+ key +:+ " not found in secret " +:+ secretName
  | BinarySecret => "binary secrets not supported"
  | ParameterNoValue => "parameter has no value"
  | FailedAfterRetries n lastErr =>
      "failed after " +:+ format_d n +:+ " retries: " +:+
      match lastErr with
      | Some cause => Error cause
      | None => "%!w(<nil>)"
      end
  end.

(** ** The world outside the program *)

(** [time.Duration]: nanoseconds. *)
Definition Duration := Z.
Definition Millisecond : Duration := 1000000.
Definition Second : Duration := 1000 * Millisecond.

(** What the resolver asks of the outside, in the order it asks. *)
Inductive event : Type :=
  | CallLoadDefaultConfig
  | CallGetSecretValue (SecretId : string)
  | CallGetParameter (Name : string) (WithDecryption : bool)
  | TimerFired (d : Duration)     (* select took [<-time.After(d)] *)
  | ContextDone (d : Duration)    (* select took [<-ctx.Done()] *)
  | CallUnmarshal (data : string).

Definition history := list event.

(** The fetches of a history. *)
Definition is_fetch (ev : event) : bool :=
  match ev with
  | CallGetSecretValue _ | CallGetParameter _ _ => true
  | _ => false
  end.

Fixpoint calls_so_far (h : history) : nat :=
  match h with
  | [] => O
  | ev :: h' => if is_fetch ev then S (calls_so_far h') else calls_so_far h'
  end.

(** [secretsmanager.GetSecretValueOutput]; a nil [*string] is [None]. *)
Record GetSecretValueOutput := { SecretString : option string }.

(** [ssm.GetParameterOutput] (its field [Parameter] is [Param] here) and
    [types.Parameter]. *)
Record Parameter_t := { Value : option string }.
Record GetParameterOutput := { Param : option Parameter_t }.

(** The answers of the outside.  Each answer may depend on everything that
    happened before (the history), which covers transient failures,
    deadlines and cancellation of the context. *)
Record world := {
  LoadDefaultConfig : history -> option error;
  GetSecretValue : history -> string -> error + GetSecretValueOutput;
  GetParameter : history -> string -> bool -> error + GetParameterOutput;
  (* [Some err]: the context is done before the timer, [ctx.Err() = err] *)
  ctx_Done : history -> Duration -> option error;
  (* [json.Unmarshal(data, &parsed)] for [parsed map[string]string] *)
  Unmarshal : string -> error + gmap string string
}.

(** Computations that extend the history. *)
Definition M (A : Type) : Type := history -> A * history.

Definition ret {A} (a : A) : M A := fun h => (a, h).

Definition bind {A B} (m : M A) (k : A -> M B) : M B :=
  fun h => let '(a, h') := m h in k a h'.

Notation "'let*' x ':=' m 'in' k" := (bind m (fun x => k))
  (at level 10, x name, m at level 100, k at level 200, only parsing).
Notation "'let*' ' pat ':=' m 'in' k" :=
  (bind m (fun x => match x with pat => k end))
  (at level 10, pat pattern, m at level 100, k at level 200, only parsing).

Definition call_LoadDefaultConfig (w : world) : M (option error) :=
  fun h => (LoadDefaultConfig w h, h ++ [CallLoadDefaultConfig]).

Definition call_GetSecretValue (w : world) (name : string)
  : M (error + GetSecretValueOutput) :=
  fun h => (GetSecretValue w h name, h ++ [CallGetSecretValue name]).

Definition call_GetParameter (w : world) (name : string) (dec : bool)
  : M (error + GetParameterOutput) :=
  fun h => (GetParameter w h name dec, h ++ [CallGetParameter name dec]).

(** [select { case <-ctx.Done(): ...; case <-time.After(d): }]. *)
Definition select_Done_or_After (w : world) (d : Duration) : M (option error) :=
  fun h => match ctx_Done w h d with
           | Some err => (Some err, h ++ [ContextDone d])
           | None => (None, h ++ [TimerFired d])
           end.

Definition call_Unmarshal (w : world) (data : string)
  : M (error + gmap string string) :=
  fun h => (Unmarshal w data, h ++ [CallUnmarshal data]).

(** ** The secret resolver *)

Definition secretPrefix : string := "aws-secret:".
Definition maxRetries : Z := 3.
Definition retryDelay : Duration := 100 * Millisecond.

(** The body of [for i := 0; i < maxRetries; i++] in [getSecret]; [n] is
    the number of iterations left, [maxRetries - i]. *)
Fixpoint getSecret_loop (w : world) (name : string) (n : nat) (i : Z)
    (lastErr : option error) : M (string * option error) :=
  match n with
  | O => ret (EmptyString, Some (FailedAfterRetries maxRetries lastErr))
  | S n' =>
      let* done := (if 0 <? i then select_Done_or_After w (retryDelay * i)
               else ret None) in
      match done with
      | Some err => ret (EmptyString, Some err)
      | None =>
          let* r := call_GetSecretValue w name in
          match r with
          | inl err => getSecret_loop w name n' (i + 1) (Some err)
          | inr resp =>
              match SecretString resp with
              | None => ret (EmptyString, Some BinarySecret)
              | Some s => ret (s, None)
              end
          end
      end
  end.

Definition getSecret (w : world) (name : string) : M (string * option error) :=
  getSecret_loop w name (Z.to_nat maxRetries) 0 None.

(** The loop of [getParameter]. *)
Fixpoint getParameter_loop (w : world) (name : string) (n : nat) (i : Z)
    (lastErr : option error) : M (string * option error) :=
  match n with
  | O => ret (EmptyString, Some (FailedAfterRetries maxRetries lastErr))
  | S n' =>
      let* done := (if 0 <? i then select_Done_or_After w (retryDelay * i)
               else ret None) in
      match done with
      | Some err => ret (EmptyString, Some err)
      | None =>
          let* r := call_GetParameter w name true in
          match r with
          | inl err => getParameter_loop w name n' (i + 1) (Some err)
          | inr resp =>
              match Param resp with
              | None => ret (EmptyString, Some ParameterNoValue)
              | Some p =>
                  match Value p with
                  | None => ret (EmptyString, Some ParameterNoValue)
                  | Some v => ret (v, None)
                  end
              end
          end
      end
  end.

Definition getParameter (w : world) (name : string)
  : M (string * option error) :=
  getParameter_loop w name (Z.to_nat maxRetries) 0 None.

Definition ssmReferencePath : string := "/aws/reference/secretsmanager/".

(** [parts[i]]; [SplitN] with n = 2 returns one or two parts, so the two
    indexings of [resolveSecret] are in range. *)
Definition index_parts (parts : list string) (i : nat) : string :=
  default EmptyString (parts !! i).

Definition resolveSecret (w : world) (ref : string)
  : M (string * option error) :=
  let trimmed := strings.TrimPrefix ref secretPrefix in
  if String.eqb trimmed "" then ret (EmptyString, Some EmptyReference)
  else if strings.HasPrefix trimmed ssmReferencePath
  then getParameter w trimmed
  else
    let parts := strings.SplitN trimmed "#" 2 in
    let secretName := index_parts parts 0 in
    if String.eqb secretName "" then ret (EmptyString, Some EmptyName)
    else
      let* '(secretValue, err) := getSecret w secretName in
      match err with
      | Some err => ret (EmptyString, Some err)
      | None =>
          if (length parts =? 1)%nat then ret (secretValue, None)
          else
            let key := index_parts parts 1 in
            let* r := call_Unmarshal w secretValue in
            match r with
            | inl err => ret (EmptyString, Some (NotJSON secretName err))
            | inr parsed =>
                match parsed !! key with
                | None => ret (EmptyString, Some (KeyNotFound key secretName))
                | Some value => ret (value, None)
                end
            end
      end.

(** The second loop of [resolveSecrets], over the entries still to do, with
    the [result] slice built so far.  A nil slice is the empty list. *)
Fixpoint resolveSecrets_loop (w : world) (env result : list string)
  : M (list string * option error) :=
  match env with
  | [] => ret (result, None)
  | e :: env' =>
      let '(name, value, found) := strings.Cut e "=" in
      if negb found then resolveSecrets_loop w env' result
      else if strings.HasPrefix value secretPrefix
      then
        let* '(resolved, err) := resolveSecret w value in
        match err with
        | Some err => ret ([], Some (FailedToResolve name err))
        | None =>
            resolveSecrets_loop w env' (result ++ [name +:+ "=" +:+ resolved])
        end
      else resolveSecrets_loop w env' (result ++ [name +:+ "=" +:+ value])
  end.

Definition resolveSecrets (w : world) (env : list string)
  : M (list string * option error) :=
  let hasSecrets :=
    existsb (fun e => strings.Contains e secretPrefix) env in
  if negb hasSecrets then ret (env, None)
  else
    let* cfg := call_LoadDefaultConfig w in
    match cfg with
    | Some err => ret ([], Some (FailedToLoadConfig err))
    | None => resolveSecrets_loop w env []
    end.

(** ** The pipeline, with the nil slices

    [resolveSecrets_loop] and [resolveSecrets] take a slice for the list of
    its elements, which is all that [range], [append] and the callers in the
    tests see.  [main] hands the slice it gets to os/exec, which tells a nil
    slice from one of length 0.  These are the same two functions with that
    difference kept: [None] is the nil slice, [Some l] a slice holding [l],
    possibly of length 0. *)

Definition slice : Type := option (list string).

(** What [range] goes through. *)
Definition elements (s : slice) : list string := default [] s.

(** [append(s, x)], which is never nil. *)
Definition slice_append (s : slice) (x : string) : slice :=
  Some (elements s ++ [x]).

Fixpoint resolveSecrets_slice_loop (w : world) (env : list string)
    (result : slice) : M (slice * option error) :=
  match env with
  | [] => ret (result, None)
  | e :: env' =>
      let '(name, value, found) := strings.Cut e "=" in
      if negb found then resolveSecrets_slice_loop w env' result
      else if strings.HasPrefix value secretPrefix
      then
        let* '(resolved, err) := resolveSecret w value in
        match err with
        | Some err => ret (None, Some (FailedToResolve name err))
        | None =>
            resolveSecrets_slice_loop w env'
              (slice_append result (name +:+ "=" +:+ resolved))
        end
      else
        resolveSecrets_slice_loop w env'
          (slice_append result (name +:+ "=" +:+ value))
  end.

(** [var result []string] is nil until the first [append]. *)
Definition resolveSecrets_slice (w : world) (env : slice)
  : M (slice * option error) :=
  let hasSecrets :=
    existsb (fun e => strings.Contains e secretPrefix) (elements env) in
  if negb hasSecrets then ret (env, None)
  else
    let* cfg := call_LoadDefaultConfig w in
    match cfg with
    | Some err => ret (None, Some (FailedToLoadConfig err))
    | None => resolveSecrets_slice_loop w (elements env) None
    end.

(** The slice built by [append] from nil that holds [l]: nil when nothing
    was appended. *)
Definition nil_if_empty (l : list string) : slice :=
  match l with
  | [] => None
  | _ => Some l
  end.

(** ** A decoder to stand for [json.Unmarshal]

    [json.Unmarshal] is a parameter of the model (the field [Unmarshal] of
    a [world]).  To run the resolver on concrete payloads, this is a decoder
    of JSON texts into a [map[string]string]: [null] or an object whose
    members are strings or [null], with the single-character escapes.
    [\u] escapes are refused. *)

Module json.

Definition dquote : ascii := "034"%char.
Definition backslash : ascii := "092"%char.

Definition is_space (c : ascii) : bool :=
  Ascii.eqb c " "%char || Ascii.eqb c "009"%char
  || Ascii.eqb c "010"%char || Ascii.eqb c "013"%char.

Fixpoint skip_space (s : string) : string :=
  match s with
  | String c s' => if is_space c then skip_space s' else s
  | EmptyString => s
  end.

Definition unescape (c : ascii) : option ascii :=
  if Ascii.eqb c dquote then Some dquote
  else if Ascii.eqb c backslash then Some backslash
  else if Ascii.eqb c "/"%char then Some "/"%char
  else if Ascii.eqb c "b"%char then Some "008"%char
  else if Ascii.eqb c "f"%char then Some "012"%char
  else if Ascii.eqb c "n"%char then Some "010"%char
  else if Ascii.eqb c "r"%char then Some "013"%char
  else if Ascii.eqb c "t"%char then Some "009"%char
  else None.

(** The characters of a string literal after its opening quote, and what
    follows the closing quote. *)
Fixpoint string_body (s : string) : option (string * string) :=
  match s with
  | EmptyString => None
  | String c s' =>
      if Ascii.eqb c dquote then Some (EmptyString, s')
      else if Ascii.eqb c backslash then
        match s' with
        | String e s'' =>
            match unescape e, string_body s'' with
            | Some ch, Some (t, rest) => Some (String ch t, rest)
            | _, _ => None
            end
        | EmptyString => None
        end
      else if (nat_of_ascii c <? 32)%nat then None
      else match string_body s' with
           | Some (t, rest) => Some (String c t, rest)
           | None => None
           end
  end.

(** A member value: a string, or [null], which leaves the zero value. *)
Definition value (s : string) : option (string * string) :=
  match s with
  | String c s' =>
      if Ascii.eqb c dquote then string_body s'
      else if strings.HasPrefix s "null"
      then Some (EmptyString, strings.drop_bytes 4 s)
      else None
  | EmptyString => None
  end.

(** The members of an object after its opening brace; a repeated key
    keeps its last value. *)
Fixpoint members (fuel : nat) (s : string) (m : gmap string string)
  : option (gmap string string * string) :=
  match fuel with
  | O => None
  | S fuel' =>
      match skip_space s with
      | String q s1 =>
          if Ascii.eqb q dquote then
            match string_body s1 with
            | Some (k, s2) =>
                match skip_space s2 with
                | String colon s3 =>
                    if Ascii.eqb colon ":"%char then
                      match value (skip_space s3) with
                      | Some (v, s4) =>
                          match skip_space s4 with
                          | String sep s5 =>
                              if Ascii.eqb sep ","%char
                              then members fuel' s5 (<[k:=v]> m)
                              else if Ascii.eqb sep "}"%char
                              then Some (<[k:=v]> m, s5)
                              else None
                          | EmptyString => None
                          end
                      | None => None
                      end
                    else None
                | EmptyString => None
                end
            | None => None
            end
          else None
      | EmptyString => None
      end
  end.

Definition SyntaxError : error :=
  External "json: cannot unmarshal into Go value of type map[string]string".

Definition Unmarshal (data : string) : error + gmap string string :=
  let s := skip_space data in
  if strings.HasPrefix s "null"
  then match skip_space (strings.drop_bytes 4 s) with
       | EmptyString => inr ∅
       | _ => inl SyntaxError
       end
  else match s with
       | String c s1 =>
           if Ascii.eqb c "{"%char then
             match skip_space s1 with
             | String c' s2 =>
                 if Ascii.eqb c' "}"%char
                 then match skip_space s2 with
                      | EmptyString => inr ∅
                      | _ => inl SyntaxError
                      end
                 else match members (String.length s1) s1 ∅ with
                      | Some (m, rest) =>
                          match skip_space rest with
                          | EmptyString => inr m
                          | _ => inl SyntaxError
                          end
                      | None => inl SyntaxError
                      end
             | EmptyString => inl SyntaxError
             end
           else inl SyntaxError
       | EmptyString => inl SyntaxError
       end.

(** A string literal of JSON without characters to escape. *)
Definition quoted (s : string) : string :=
  String dquote (s +:+ String dquote EmptyString).

End json.

(** The payload of the repository's key-extraction test. *)
Definition test_payload : string :=
  "{" +:+ json.quoted "database_url" +:+ ":"
      +:+ json.quoted "postgres://localhost" +:+ ","
      +:+ json.quoted "api_key" +:+ ":" +:+ json.quoted "secret123" +:+ "}".

(** ** The process executor *)

(** [syscall.Signal] numbers (linux). *)
Definition SIGINT : Z := 2.
Definition SIGQUIT : Z := 3.
Definition SIGKILL : Z := 9.
Definition SIGUSR1 : Z := 10.
Definition SIGUSR2 : Z := 12.
Definition SIGTERM : Z := 15.

(** A value of the interface [os.Signal]: a [syscall.Signal], or a value of
    another type. *)
Inductive os_Signal : Type :=
  | syscall_Signal (n : Z)
  | foreign_Signal (name : string).

(** [syscall.WaitStatus] (linux), a uint32, with the methods [execute]
    relies on. *)
Module WaitStatus.
Definition mask : Z := 0x7F.
Definition core : Z := 0x80.
Definition exited : Z := 0x00.
Definition stopped : Z := 0x7F.
Definition shift : Z := 8.

Definition Exited (w : Z) : bool := Z.land w mask =? exited.

Definition Signaled (w : Z) : bool :=
  negb (Z.land w mask =? stopped) && negb (Z.land w mask =? exited).

Definition ExitStatus (w : Z) : Z :=
  if negb (Exited w) then -1 else Z.land (Z.shiftr w shift) 0xFF.
End WaitStatus.

(** How the child ended, and the status word the kernel reports for it
    (exit code in bits 8 to 15; signal in bits 0 to 6, core flag in bit 7). *)
Inductive termination : Type :=
  | ExitedWith (code : Z)
  | KilledBy (sig : Z) (coredump : bool).

Definition status_word (t : termination) : Z :=
  match t with
  | ExitedWith code => Z.shiftl (Z.land code 0xFF) WaitStatus.shift
  | KilledBy sig coredump =>
      Z.lor (Z.land sig WaitStatus.mask)
            (if coredump then WaitStatus.core else 0)
  end.

(** What [exitErr.Sys()] holds. *)
Inductive Sys_value : Type :=
  | Sys_WaitStatus (w : Z)
  | Sys_other.

(** A non-nil result of [cmd.Wait()]. *)
Inductive wait_error : Type :=
  | ExitError (sys : Sys_value)       (* *exec.ExitError *)
  | WaitFailure (err : error).        (* any other error *)

(** [cmd.Wait()] of os/exec for a child that ended with [t]: nil when the
    process state reports success ([ExitStatus() == 0]), an
    [*exec.ExitError] carrying the process state otherwise. *)
Definition Wait_of (t : termination) : option wait_error :=
  let w := status_word t in
  if WaitStatus.ExitStatus w =? 0 then None
  else Some (ExitError (Sys_WaitStatus w)).

(** What [cmd.Start()] leaves behind. *)
Inductive start_result : Type :=
  | StartError (err : error)
  | StartedWithoutProcess             (* cmd.Process == nil *)
  | Started (pid : Z).

(** The answers of the operating system to [execute]; [cmd_Start] is given
    the command, its arguments and [cmd.Env]. *)
Record process_world := {
  cmd_Start : string -> list string -> slice -> start_result;
  cmd_Wait : option wait_error
}.

(** What [execute] does, in order.  [CmdStart] is [cmd.Start()] with the
    fields of [cmd] as [execute] has set them: the command, its arguments,
    [cmd.Env] and [cmd.SysProcAttr.Setpgid]. *)
Inductive exec_event : Type :=
  | CmdStart (command : string) (args : list string) (Env : slice)
      (Setpgid : bool)
  | LogFailedToStart (command : string) (err : error)
  | LogNoProcess
  | LogStarted (command : string) (pid : Z)
  | SignalNotify (sigs : list Z)
  | GoHandleSignals (pid : Z)
  | CmdWait
  | SignalStop
  | LogProcessFailed (err : wait_error).

(** The environment os/exec builds the child's from ([Cmd.environ], before
    it removes duplicate keys): with a nil [cmd.Env], the environment of the
    calling process; with any other [cmd.Env], even of length 0,
    [cmd.Env]. *)
Definition Cmd_environ (parent : list string) (Env : slice) : list string :=
  match Env with
  | None => parent
  | Some env => env
  end.

(** [execute]: the exit code, and what was done. *)
Definition execute (p : process_world) (command : string)
    (args : list string) (env : slice) : Z * list exec_event :=
  let start := [CmdStart command args env true] in
  match cmd_Start p command args env with
  | StartError err => (1, start ++ [LogFailedToStart command err])
  | StartedWithoutProcess => (1, start ++ [LogNoProcess])
  | Started pid =>
      let running :=
        start ++ [LogStarted command pid;
                  SignalNotify [SIGTERM; SIGINT; SIGQUIT; SIGUSR1; SIGUSR2];
                  GoHandleSignals pid; CmdWait; SignalStop] in
      match cmd_Wait p with
      | Some err =>
          match err with
          | ExitError (Sys_WaitStatus status) =>
              (WaitStatus.ExitStatus status, running)
          | _ => (1, running ++ [LogProcessFailed err])
          end
      | None => (0, running)
      end
  end.

Definition gracefulTimeout : Duration := 10 * Second.

(** The lines [handleSignals] and its goroutines write to the log. *)
Inductive log_entry : Type :=
  | LogForwarding (sig : os_Signal) (pid : Z)
  | LogIgnoring (sig : os_Signal)
  | LogSignalFailed (target : Z)
  | LogTimeoutExpired (pid : Z)
  | LogKillFailed (target : Z).

(** The child, its process group, the signal handler and its timer
    goroutines, as one state: the clock; whether the child still exists, and
    whether its process group still has a member (the two are apart: a
    group can outlive the child, through descendants that stay in it);
    every call of [syscall.Kill] made so far, as time, target and signal;
    those of the calls that found their target; the deadlines of the
    sleeping goroutines; and the log.  The goroutines share nothing but the
    child's pid, so a run of the program is an interleaving of the steps
    defined below. *)
Record supervisor := {
  now : Duration;
  child_running : bool;
  group_running : bool;
  sent : list (Duration * Z * Z);
  delivered : list (Duration * Z * Z);
  timers : list Duration;
  log : list log_entry
}.

Definition add_log (l : log_entry) (s : supervisor) : supervisor :=
  {| now := now s; child_running := child_running s;
     group_running := group_running s; sent := sent s;
     delivered := delivered s; timers := timers s; log := log s ++ [l] |}.

(** Whether the kernel finds the target of a kill: [pid] is the child,
    [- pid] its process group; the code uses no other target. *)
Definition finds (pid target : Z) (s : supervisor) : bool :=
  if target =? pid then child_running s
  else if target =? - pid then group_running s
  else false.

(** [syscall.Kill(target, sig)] at time [t], where the child is [pid]: the
    call is made whatever the state; it reaches its target when the kernel
    finds it, and fails (ESRCH) otherwise. *)
Definition syscall_Kill (pid : Z) (t : Duration) (target sig : Z)
    (s : supervisor) : bool * supervisor :=
  let found := finds pid target s in
  (found,
   {| now := now s; child_running := child_running s;
      group_running := group_running s;
      sent := sent s ++ [(t, target, sig)];
      delivered := delivered s ++ (if found then [(t, target, sig)] else []);
      timers := timers s; log := log s |}).

Definition forwardSignal (pid : Z) (sig : os_Signal) (s : supervisor)
  : supervisor :=
  match sig with
  | foreign_Signal _ => s
  | syscall_Signal syscallSig =>
      let '(ok1, s1) := syscall_Kill pid (now s) (- pid) syscallSig s in
      let s1 := if ok1 then s1 else add_log (LogSignalFailed (- pid)) s1 in
      let '(ok2, s2) := syscall_Kill pid (now s) pid syscallSig s1 in
      if ok2 then s2 else add_log (LogSignalFailed pid) s2
  end.

(** [go func() { time.Sleep(gracefulTimeout); ... }()]: a goroutine that
    wakes at [now + gracefulTimeout]. *)
Definition go_shutdown_timer (s : supervisor) : supervisor :=
  {| now := now s; child_running := child_running s;
     group_running := group_running s; sent := sent s;
     delivered := delivered s;
     timers := timers s ++ [now s + gracefulTimeout]; log := log s |}.

(** The goroutine after its sleep, at its [deadline]. *)
Definition shutdown_timer_body (pid : Z) (deadline : Duration)
    (s : supervisor) : supervisor :=
  let s0 := add_log (LogTimeoutExpired pid) s in
  let '(ok1, s1) := syscall_Kill pid deadline pid SIGKILL s0 in
  let s1 := if ok1 then s1 else add_log (LogKillFailed pid) s1 in
  let '(ok2, s2) := syscall_Kill pid deadline (- pid) SIGKILL s1 in
  if ok2 then s2 else add_log (LogKillFailed (- pid)) s2.

Definition is_syscall (sig : os_Signal) (n : Z) : bool :=
  match sig with
  | syscall_Signal m => m =? n
  | foreign_Signal _ => false
  end.

(** One iteration of [for sig := range sigChan]. *)
Definition handleSignal (pid : Z) (sig : os_Signal) (s : supervisor)
  : supervisor :=
  if is_syscall sig SIGTERM || is_syscall sig SIGINT || is_syscall sig SIGQUIT
  then
    let s1 := forwardSignal pid sig (add_log (LogForwarding sig pid) s) in
    if is_syscall sig SIGTERM then go_shutdown_timer s1 else s1
  else if is_syscall sig SIGUSR1 || is_syscall sig SIGUSR2
  then forwardSignal pid sig (add_log (LogForwarding sig pid) s)
  else add_log (LogIgnoring sig) s.

(** [handleSignals] over the signals read from the channel, with no time
    passing in between. *)
Definition handleSignals (pid : Z) (sigChan : list os_Signal)
    (s : supervisor) : supervisor :=
  fold_left (fun s sig => handleSignal pid sig s) sigChan s.

(** What can happen next: the handler reads a signal, time passes, the
    child ends (its group keeps the members it has beside the child), or
    the group is left without a member.  Nobody comes back: the pid and the
    group id are not handed out again while the handler runs. *)
Inductive step : Type :=
  | Receive (sig : os_Signal)
  | Elapse (d : Duration)
  | ChildExits
  | GroupExits.

(** Time passes: the goroutines whose deadline is reached run, the oldest
    first, each at its deadline. *)
Definition elapse (pid : Z) (d : Duration) (s : supervisor) : supervisor :=
  let t := now s + d in
  let due := filter (fun deadline => deadline <= t) (timers s) in
  let waiting := filter (fun deadline => ¬ deadline <= t) (timers s) in
  let s1 :=
    fold_left (fun s deadline => shutdown_timer_body pid deadline s) due
      {| now := now s; child_running := child_running s;
         group_running := group_running s; sent := sent s;
         delivered := delivered s; timers := waiting; log := log s |} in
  {| now := t; child_running := child_running s1;
     group_running := group_running s1; sent := sent s1;
     delivered := delivered s1; timers := timers s1; log := log s1 |}.

Definition child_exits (s : supervisor) : supervisor :=
  {| now := now s; child_running := false;
     group_running := group_running s; sent := sent s;
     delivered := delivered s; timers := timers s; log := log s |}.

Definition group_exits (s : supervisor) : supervisor :=
  {| now := now s; child_running := child_running s;
     group_running := false; sent := sent s;
     delivered := delivered s; timers := timers s; log := log s |}.

Definition run_step (pid : Z) (e : step) (s : supervisor) : supervisor :=
  match e with
  | Receive sig => handleSignal pid sig s
  | Elapse d => elapse pid d s
  | ChildExits => child_exits s
  | GroupExits => group_exits s
  end.

Definition run (pid : Z) (steps : list step) (s : supervisor) : supervisor :=
  fold_left (fun s e => run_step pid e s) steps s.

(** Right after [cmd.Start()] with [Setpgid]: the child runs, alone in its
    group, and nothing was sent. *)
Definition started : supervisor :=
  {| now := 0; child_running := true; group_running := true;
     sent := []; delivered := []; timers := []; log := [] |}.

(** A world of processes where [cmd.Start()] gives a child [pid] that ends
    with [t]. *)
Definition child_ending (pid : Z) (t : termination) : process_world :=
  {| cmd_Start := fun _ _ _ => Started pid; cmd_Wait := Wait_of t |}.

(** A world of processes where the command cannot be started. *)
Definition no_such_command : process_world :=
  {| cmd_Start :=
       fun _ _ _ =>
         StartError (External "executable file not found in $PATH");
     cmd_Wait := None |}.

(** ** Statements about the executor *)



(** The target of a call of [syscall.Kill]. *)
Definition target_of (call : Duration * Z * Z) : Z := snd (fst call).

(** Those of the calls [calls] that find their target in state [s]. *)
Definition reaching (pid : Z) (s : supervisor)
    (calls : list (Duration * Z * Z)) : list (Duration * Z * Z) :=
  List.filter (fun call => finds pid (target_of call) s) calls.

(** The two calls of [forwardSignal] at time [t]: the group, then the
    child. *)
Definition forwarded (pid : Z) (t : Duration) (sig : Z)
  : list (Duration * Z * Z) :=
  [(t, - pid, sig); (t, pid, sig)].

(** The two calls of a goroutine that wakes at [deadline]: the child, then
    the group. *)
Definition forced_kills (pid : Z) (deadline : Duration)
  : list (Duration * Z * Z) :=
  [(deadline, pid, SIGKILL); (deadline, - pid, SIGKILL)].

(** ** The entries of a resolved environment, as the pipeline is described

    [resolved_entries w env h out h']: going through [env] in order from
    history [h], dropping the entries without ["="], keeping the entries
    whose value does not start with the prefix as they are, and replacing
    the value of the others by what [resolveSecret] returns without error,
    gives [out] and leaves history [h']. *)

Definition malformed (e : string) : bool := negb (strings.Contains e "=").

Inductive resolved_entries (w : world)
  : list string -> history -> list string -> history -> Prop :=
  | resolved_nil h :
      resolved_entries w [] h [] h
  | resolved_drop e env h out h' :
      malformed e = true ->
      resolved_entries w env h out h' ->
      resolved_entries w (e :: env) h out h'
  | resolved_keep e name value env h out h' :
      strings.Cut e "=" = (name, value, true) ->
      strings.HasPrefix value secretPrefix = false ->
      resolved_entries w env h out h' ->
      resolved_entries w (e :: env) h (e :: out) h'
  | resolved_secret e name value resolved env h h1 out h' :
      strings.Cut e "=" = (name, value, true) ->
      strings.HasPrefix value secretPrefix = true ->
      resolveSecret w value h = (resolved, None, h1) ->
      resolved_entries w env h1 out h' ->
      resolved_entries w (e :: env) h ((name +:+ "=" +:+ resolved) :: out) h'.

(** [first_failure w env h name inner h']: the entries before some entry
    [name=value] resolve, and [resolveSecret] fails on [value] with [inner],
    leaving history [h']. *)
Definition first_failure (w : world) (env : list string) (h : history)
    (name : string) (inner : error) (h' : history) : Prop :=
  exists before e after out h1 value r,
    env = before ++ e :: after
    /\ resolved_entries w before h out h1
    /\ strings.Cut e "=" = (name, value, true)
    /\ strings.HasPrefix value secretPrefix = true
    /\ resolveSecret w value h1 = (r, Some inner, h').

(** The entry is [name=value] with a value that starts with the prefix. *)
Definition value_is_reference (e : string) : bool :=
  let '(_, value, found) := strings.Cut e "=" in
  found && strings.HasPrefix value secretPrefix.

(** Success of a whole call from history [h]: nothing to resolve and the
    input is returned as it is without touching the outside, or the clients
    are set up and every entry is resolved. *)
Definition fully_resolved (w : world) (env : list string) (h : history)
    (out : list string) (h' : history) : Prop :=
  (Forall (fun e => strings.Contains e secretPrefix = false) env
   /\ out = env /\ h' = h)
  \/ (LoadDefaultConfig w h = None
      /\ resolved_entries w env (h ++ [CallLoadDefaultConfig]) out h').

(** The all-or-nothing property with the key-naming error as the only way
    to fail. *)
Definition all_or_key_error (w : world) (env : list string) (h : history)
  : Prop :=
  let '(out, err, h') := resolveSecrets w env h in
  match err with
  | None => fully_resolved w env h out h'
  | Some e =>
      out = [] /\
      exists name inner,
        e = FailedToResolve name inner
        /\ first_failure w env (h ++ [CallLoadDefaultConfig]) name inner h'
  end.

(** ** The reference grammar, as the specification words it

    These definitions follow the parsing rules of the specification, not
    the code; [resolveSecret] is compared with them below. *)

Inductive SecretReference : Type :=
  | SecretStoreSimple (name : string)
  | SecretStoreWithKey (name jsonKey : string)
  | ParameterStorePath (path : string).

(** Split on the first ["#"] only: the left part, and the right part when
    there is a ["#"]. *)
Fixpoint split_first_hash (s : string) : string * option string :=
  match s with
  | EmptyString => (EmptyString, None)
  | String c s' =>
      if Ascii.eqb c "#"%char then (EmptyString, Some s')
      else let '(name, key) := split_first_hash s' in (String c name, key)
  end.

(** Rules 1 to 4, on the remainder after the prefix. *)
Definition classify (remainder : string) : error + SecretReference :=
  match remainder with
  | EmptyString => inl EmptyReference
  | _ =>
      if strings.HasPrefix remainder ssmReferencePath
      then inr (ParameterStorePath remainder)
      else match split_first_hash remainder with
           | (EmptyString, _) => inl EmptyName
           | (name, None) => inr (SecretStoreSimple name)
           | (name, Some key) => inr (SecretStoreWithKey name key)
           end
  end.

(** Value extraction from the raw secret, for a key. *)
Definition extract_key (w : world) (secretName key raw : string)
  : M (string * option error) :=
  fun h =>
    let h' := h ++ [CallUnmarshal raw] in
    match Unmarshal w raw with
    | inl cause => (EmptyString, Some (NotJSON secretName cause), h')
    | inr parsed =>
        match parsed !! key with
        | None => (EmptyString, Some (KeyNotFound key secretName), h')
        | Some value => (value, None, h')
        end
    end.

(** What each kind of reference resolves to. *)
Definition resolve_reference (w : world) (r : SecretReference)
  : M (string * option error) :=
  match r with
  | ParameterStorePath path => getParameter w path
  | SecretStoreSimple name =>
      fun h =>
        match getSecret w name h with
        | (_, Some err, h') => (EmptyString, Some err, h')
        | (raw, None, h') => (raw, None, h')
        end
  | SecretStoreWithKey name key =>
      fun h =>
        match getSecret w name h with
        | (_, Some err, h') => (EmptyString, Some err, h')
        | (raw, None, h') => extract_key w name key raw h'
        end
  end.

(** ** The retry policy, as the specification words it *)

(** The wait before attempt [i], for [i >= 2]. *)
Definition wait_before_attempt (i : Z) : Duration :=
  100 * Millisecond * (i - 1).

(** The courses a fetch loop can take, [call] being one attempt: at most
    three attempts, the first at once, each later one after its wait, and
    nothing after a wait that the context interrupts. *)
Definition retry_courses (call : event) : list (list event) :=
  [ [call];
    [call; ContextDone (wait_before_attempt 2)];
    [call; TimerFired (wait_before_attempt 2); call];
    [call; TimerFired (wait_before_attempt 2); call;
     ContextDone (wait_before_attempt 3)];
    [call; TimerFired (wait_before_attempt 2); call;
     TimerFired (wait_before_attempt 3); call] ].

(** What an answer of Secrets Manager is worth to [getSecret]. *)
Definition secret_payload (resp : GetSecretValueOutput)
  : string * option error :=
  match SecretString resp with
  | None => (EmptyString, Some BinarySecret)
  | Some s => (s, None)
  end.

(** What an answer of the Parameter Store is worth to [getParameter]. *)
Definition parameter_payload (resp : GetParameterOutput)
  : string * option error :=
  match Param resp with
  | None => (EmptyString, Some ParameterNoValue)
  | Some p =>
      match Value p with
      | None => (EmptyString, Some ParameterNoValue)
      | Some v => (v, None)
      end
  end.

(** The transport error of an answer, if any. *)
Definition transport_error {A} (answer : error + A) : option error :=
  match answer with
  | inl err => Some err
  | inr _ => None
  end.

(** What a run of a fetch loop looks like from history [h], for an attempt
    [call] whose transport error after a history is given by [failure]:
    one of the courses, hence at most three attempts; the loop goes on to a
    wait only after a failed attempt, and past a wait only when the context
    let the timer fire; a wait interrupted by the context ends the run with
    the error of the context; a failed attempt ends the run only when it is
    the third, with that last failure and the number of attempts. *)
Definition retry_outcome (w : world) (call : event)
    (failure : history -> option error)
    (h : history) (v : string) (err : option error) (h' : history) : Prop :=
  exists course,
    h' = h ++ course
    /\ course ∈ retry_courses call
    /\ (calls_so_far course <= 3)%nat
    /\ (forall before d after,
          course = before ++ TimerFired d :: after ->
          ctx_Done w (h ++ before) d = None)
    /\ (forall before d,
          course = before ++ [ContextDone d] ->
          v = EmptyString /\ err = ctx_Done w (h ++ before) d
          /\ is_Some (ctx_Done w (h ++ before) d))
    /\ (forall before e3,
          course = before ++ [call] ->
          failure (h ++ before) = Some e3 ->
          before = [call; TimerFired (wait_before_attempt 2); call;
                    TimerFired (wait_before_attempt 3)]
          /\ v = EmptyString
          /\ err = Some (FailedAfterRetries 3 (Some e3))
          /\ Error (FailedAfterRetries 3 (Some e3))
             = "failed after 3 retries: " +:+ Error e3).

(** An answer without a usable value makes the loop try again, as the
    specification has it, for the first attempt of a run from [h]. *)
Definition retried_after_empty_answer (w : world) (name : string)
    (h : history) : Prop :=
  GetSecretValue w h name = inr {| SecretString := None |} ->
  (calls_so_far h + 2 <= calls_so_far (snd (getSecret w name h)))%nat.

(** ** Some worlds *)

(** Every fetch succeeds with the same string; the context is never done. *)
Definition world_serving (secret : string) : world :=
  {| LoadDefaultConfig := fun _ => None;
     GetSecretValue := fun _ _ => inr {| SecretString := Some secret |};
     GetParameter :=
       fun _ _ _ => inr {| Param := Some {| Value := Some secret |} |};
     ctx_Done := fun _ _ => None;
     Unmarshal := json.Unmarshal |}.

(** No credentials: the SDK configuration cannot be loaded. *)
Definition world_without_config : world :=
  {| LoadDefaultConfig := fun _ => Some (External "no credentials");
     GetSecretValue := fun _ _ => inl (External "unreachable");
     GetParameter := fun _ _ _ => inl (External "unreachable");
     ctx_Done := fun _ _ => None;
     Unmarshal := json.Unmarshal |}.

(** The error of the [k]-th fetch of a world where every fetch fails. *)
Definition timeout_nr (h : history) : error :=
  External ("timeout " +:+ pretty (S (calls_so_far h))).

(** Every fetch fails at the transport level; the context is never done. *)
Definition world_unreachable : world :=
  {| LoadDefaultConfig := fun _ => None;
     GetSecretValue := fun h _ => inl (timeout_nr h);
     GetParameter := fun h _ _ => inl (timeout_nr h);
     ctx_Done := fun _ _ => None;
     Unmarshal := json.Unmarshal |}.

(** As [world_unreachable], but the context is done during every wait. *)
Definition world_cancelled : world :=
  {| LoadDefaultConfig := fun _ => None;
     GetSecretValue := fun h _ => inl (timeout_nr h);
     GetParameter := fun h _ _ => inl (timeout_nr h);
     ctx_Done := fun _ _ => Some (External "context canceled");
     Unmarshal := json.Unmarshal |}.

(** The first fetch answers without a usable value (a binary secret, a
    parameter without value); any later fetch would answer with a string. *)
Definition world_empty_then_value : world :=
  {| LoadDefaultConfig := fun _ => None;
     GetSecretValue :=
       fun h _ => match calls_so_far h with
                  | O => inr {| SecretString := None |}
                  | S _ => inr {| SecretString := Some "later" |}
                  end;
     GetParameter :=
       fun h _ _ => match calls_so_far h with
                    | O => inr {| Param := Some {| Value := None |} |}
                    | S _ =>
                        inr {| Param := Some {| Value := Some "later" |} |}
                    end;
     ctx_Done := fun _ _ => None;
     Unmarshal := json.Unmarshal |}.

(** ** Measures of a history and of an environment *)

(** How often the SDK configuration was loaded. *)
Fixpoint config_loads (h : history) : nat :=
  match h with
  | [] => O
  | CallLoadDefaultConfig :: h' => S (config_loads h')
  | _ :: h' => config_loads h'
  end.

(** The time spent in the waits of the retry loops, an interrupted wait
    counted in full. *)
Fixpoint waited (h : history) : Duration :=
  match h with
  | [] => 0
  | TimerFired d :: h' => d + waited h'
  | ContextDone d :: h' => d + waited h'
  | _ :: h' => waited h'
  end.

(** How many decodings were asked for. *)
Fixpoint decodings (h : history) : nat :=
  match h with
  | [] => O
  | CallUnmarshal _ :: h' => S (decodings h')
  | _ :: h' => decodings h'
  end.

(** The entries whose value is a reference. *)
Fixpoint reference_count (env : list string) : nat :=
  match env with
  | [] => O
  | e :: env' =>
      if value_is_reference e then S (reference_count env')
      else reference_count env'
  end.

(** The key of an entry: what [strings.Cut(e, "=")] puts before the
    separator. *)
Definition entry_key (e : string) : string :=
  let '(name, _, _) := strings.Cut e "=" in name.

(** The entries with a separator, in order. *)
Fixpoint well_formed_entries (env : list string) : list string :=
  match env with
  | [] => []
  | e :: env' =>
      if malformed e then well_formed_entries env'
      else e :: well_formed_entries env'
  end.

(** The cost of a part of a history: fetches, configuration loads, time
    waited, decodings. *)
Definition costs_at_most (evs : history) (fetches : nat) (wait : Duration)
    (decoded : nat) : Prop :=
  (calls_so_far evs <= fetches)%nat
  /\ config_loads evs = O
  /\ 0 <= waited evs <= wait
  /\ (decodings evs <= decoded)%nat.

(** The first fetch fails at the transport level; any later fetch answers
    with a string. *)
Definition world_flaky : world :=
  {| LoadDefaultConfig := fun _ => None;
     GetSecretValue :=
       fun h _ => match calls_so_far h with
                  | O => inl (External "throttled")
                  | S _ => inr {| SecretString := Some "later" |}
                  end;
     GetParameter :=
       fun h _ _ => match calls_so_far h with
                    | O => inl (External "throttled")
                    | S _ =>
                        inr {| Param := Some {| Value := Some "later" |} |}
                    end;
     ctx_Done := fun _ _ => None;
     Unmarshal := json.Unmarshal |}.

(** ** The signals [handleSignals] acts on *)

(** The five signals registered with [signal.Notify]. *)
Definition handled_signals : list Z :=
  [SIGTERM; SIGINT; SIGQUIT; SIGUSR1; SIGUSR2].

(** The signal is one of the five. *)
Definition is_handled (sig : os_Signal) : bool :=
  is_syscall sig SIGTERM || is_syscall sig SIGINT || is_syscall sig SIGQUIT
  || is_syscall sig SIGUSR1 || is_syscall sig SIGUSR2.

(** The calls of [syscall.Kill] the handler makes when it reads [sig]: to
    the group and then to the child when the signal is one of the five,
    none otherwise. *)
Definition sends (pid : Z) (sig : os_Signal) (s : supervisor)
  : list (Duration * Z * Z) :=
  match sig with
  | syscall_Signal n =>
      if is_handled sig then forwarded pid (now s) n else []
  | foreign_Signal _ => []
  end.

(** The SIGTERMs among the signals read from the channel. *)
Fixpoint count_SIGTERM (sigChan : list os_Signal) : nat :=
  match sigChan with
  | [] => O
  | sig :: rest =>
      if is_syscall sig SIGTERM then S (count_SIGTERM rest)
      else count_SIGTERM rest
  end.

(** Every forced kill was sent to the child or to its group, to the
    moment one graceful timeout after the handler forwarded a SIGTERM to
    both. *)
Definition kills_follow_SIGTERM (pid : Z) (s : supervisor) : Prop :=
  forall t target,
    (t, target, SIGKILL) ∈ sent s ->
    (target = pid \/ target = - pid)
    /\ (t - gracefulTimeout, - pid, SIGTERM) ∈ sent s
    /\ (t - gracefulTimeout, pid, SIGTERM) ∈ sent s.

(** Every sleeping goroutine was started when a SIGTERM was forwarded. *)
Definition timers_follow_SIGTERM (pid : Z) (s : supervisor) : Prop :=
  forall deadline,
    deadline ∈ timers s ->
    (deadline - gracefulTimeout, - pid, SIGTERM) ∈ sent s
    /\ (deadline - gracefulTimeout, pid, SIGTERM) ∈ sent s.

(** Nothing reached a process that was not sent. *)
Definition delivered_was_sent (s : supervisor) : Prop :=
  forall call, call ∈ delivered s -> call ∈ sent s.

(** What every state of the handler satisfies. *)
Definition follows (pid : Z) (s : supervisor) : Prop :=
  kills_follow_SIGTERM pid s /\ timers_follow_SIGTERM pid s
  /\ delivered_was_sent s.

(** ** The entry point *)

(** What [main] is started with: the flags and arguments after
    [flag.Parse()], [os.Getpid()], the entries of [os.Environ()] (a slice
    that is never nil), and the version linked in. *)
Record invocation := {
  versionFlag : bool;
  healthFlag : bool;
  Args : list string;
  Getpid : Z;
  Environ : list string;
  version : string
}.

(** What is written: to standard output, or through the [log] package. *)
Inductive output : Type :=
  | Stdout (text : string)
  | LogLine (text : string).

(** How a run of [main] ends: the argument of [os.Exit] (1 for
    [log.Fatal]), what [main] and [healthCheck] wrote, the history of the
    resolver, and what [execute] did. *)
Record outcome := {
  exit_status : Z;
  written : list output;
  resolved_with : history;
  executed : list exec_event
}.

Definition newline : string := String "010"%char EmptyString.

(** [healthCheck]: the configuration is loaded, then STS is asked who the
    caller is ([identity] is the error of that call, if any); a failure is
    fatal.  The result is the fatal message, if any, and what was written
    before. *)
Definition healthCheck (w : world) (identity : option error)
  : option string * list output :=
  match LoadDefaultConfig w [] with
  | Some err => (Some ("health check failed: " +:+ Error err), [])
  | None =>
      match identity with
      | Some err => (Some ("health check failed: " +:+ Error err), [])
      | None => (None, [Stdout ("health check passed" +:+ newline)])
      end
  end.

(** [log.Fatal]: the message is logged and the process exits with 1. *)
Definition fatal (before : list output) (message : string) (h : history)
  : outcome :=
  {| exit_status := 1; written := before ++ [LogLine message];
     resolved_with := h; executed := [] |}.

Definition main (i : invocation) (w : world) (identity : option error)
    (p : process_world) : outcome :=
  if versionFlag i then
    {| exit_status := 0;
       written := [Stdout ("aws-init " +:+ version i +:+ newline)];
       resolved_with := []; executed := [] |}
  else if healthFlag i then
    match healthCheck w identity with
    | (Some message, out) => fatal out message []
    | (None, out) =>
        {| exit_status := 0; written := out;
           resolved_with := []; executed := [] |}
    end
  else
    match Args i with
    | [] => fatal [] "usage: aws-init command [args...]" []
    | command :: args =>
        let pid1 :=
          if Getpid i =? 1 then [LogLine "aws-init: running as PID 1"]
          else [] in
        let '(env, err, h) :=
          resolveSecrets_slice w (Some (Environ i)) [] in
        match err with
        | Some err => fatal pid1 ("aws-init: " +:+ Error err) h
        | None =>
            let '(code, events) := execute p command args env in
            {| exit_status := code; written := pid1;
               resolved_with := h; executed := events |}
        end
    end.

(** A termination the kernel can report: an exit code of 0 to 255, or a
    signal of 1 to 126. *)
Definition well_formed_termination (t : termination) : Prop :=
  match t with
  | ExitedWith code => 0 <= code <= 255
  | KilledBy sig _ => 1 <= sig <= 126
  end.

(** ** The helpers of the tests *)

(** [stringsCut] of secrets_test.go. *)
Definition stringsCut (s sep : string) : string * string * bool :=
  let i := strings.Index s sep in
  if 0 <=? i
  then (strings.take_bytes (Z.to_nat i) s,
        strings.drop_bytes (Z.to_nat i + String.length sep) s, true)
  else (s, EmptyString, false).

(** The loop of [envSliceToMap], from the map built so far. *)
Fixpoint envSliceToMap_loop (env : list string)
    (result : gmap string string) : gmap string string :=
  match env with
  | [] => result
  | e :: env' =>
      let '(key, value, found) := stringsCut e "=" in
      envSliceToMap_loop env'
        (if found then <[key:=value]> result else result)
  end.

Definition envSliceToMap (env : list string) : gmap string string :=
  envSliceToMap_loop env ∅.

(** * Properties *)

(** ** The model on the inputs of the repository's tests *)

Example SplitN_first_hash_only :
  strings.SplitN "name#k1#k2" "#" 2 = ["name"; "k1#k2"].
Proof. reflexivity. Qed.

Example Cut_first_equals :
  strings.Cut "A=b=c" "=" = ("A", "b=c", true).
Proof. reflexivity. Qed.

Example Contains_mid :
  strings.Contains "X=see aws-secret:y" "aws-secret:" = true.
Proof. reflexivity. Qed.

Example Unmarshal_test_payload :
  json.Unmarshal test_payload
  = inr (<["api_key":="secret123"]>
           (<["database_url":="postgres://localhost"]> ∅)).
Proof. vm_compute. reflexivity. Qed.

Example Unmarshal_invalid :
  json.Unmarshal "{invalid json}" = inl json.SyntaxError.
Proof. reflexivity. Qed.

Example Unmarshal_lookup :
  match json.Unmarshal test_payload with
  | inr m => m !! "database_url"
  | inl _ => None
  end = Some "postgres://localhost".
Proof. vm_compute. reflexivity. Qed.

Example resolveSecret_empty_reference w h :
  resolveSecret w "aws-secret:" h = (EmptyString, Some EmptyReference, h)
  /\ Error EmptyReference = "empty secret reference".
Proof. split; reflexivity. Qed.

Example resolveSecret_empty_name w h :
  resolveSecret w "aws-secret:#key" h = (EmptyString, Some EmptyName, h)
  /\ Error EmptyName = "empty secret name".
Proof. split; reflexivity. Qed.

Example resolveSecrets_invalid_reference :
  resolveSecrets (world_serving "x") ["BAD=aws-secret:"] []
  = ([], Some (FailedToResolve "BAD" EmptyReference), [CallLoadDefaultConfig])
  /\ Error (FailedToResolve "BAD" EmptyReference)
     = "failed to resolve BAD: empty secret reference".
Proof. split; vm_compute; reflexivity. Qed.

Example resolveSecrets_mixed :
  resolveSecrets (world_serving test_payload)
    ["NORMAL=value"; "DATABASE_URL=aws-secret:myapp/prod#database_url";
     "TOKEN=aws-secret:/aws/reference/secretsmanager/myapp/token"] []
  = (["NORMAL=value"; "DATABASE_URL=postgres://localhost";
      "TOKEN=" +:+ test_payload],
     None,
     [CallLoadDefaultConfig; CallGetSecretValue "myapp/prod";
      CallUnmarshal test_payload;
      CallGetParameter "/aws/reference/secretsmanager/myapp/token" true]).
Proof. vm_compute. reflexivity. Qed.

Example classify_multiple_hashes :
  classify "myapp/prod#key#with#hash"
  = inr (SecretStoreWithKey "myapp/prod" "key#with#hash").
Proof. reflexivity. Qed.

(** ** Facts about the string functions *)

Section StringFacts.

Lemma append_cons c s t : String c s +:+ t = String c (s +:+ t).
Proof. reflexivity. Qed.

Lemma append_empty_l t : EmptyString +:+ t = t.
Proof. reflexivity. Qed.

Lemma append_assoc s t u : (s +:+ t) +:+ u = s +:+ (t +:+ u).
Proof.
  induction s as [|c s IH]; [reflexivity|].
  rewrite !append_cons, IH. reflexivity.
Qed.

Lemma HasPrefix_append p r : strings.HasPrefix (p +:+ r) p = true.
Proof.
  induction p as [|c p IH]; [reflexivity|].
  rewrite append_cons. simpl. rewrite Ascii.eqb_refl, IH. reflexivity.
Qed.

Lemma drop_bytes_append p r :
  strings.drop_bytes (String.length p) (p +:+ r) = r.
Proof. induction p as [|c p IH]; [reflexivity|]. exact IH. Qed.

Lemma HasPrefix_split s p :
  strings.HasPrefix s p = true ->
  s = p +:+ strings.drop_bytes (String.length p) s.
Proof.
  revert s. induction p as [|c p IH]; intros s H; [reflexivity|].
  destruct s as [|d s]; simpl in H; [discriminate|].
  apply andb_true_iff in H as [Hc Hp].
  apply Ascii.eqb_eq in Hc. subst d.
  rewrite append_cons. simpl. f_equal. apply IH, Hp.
Qed.

Lemma TrimPrefix_append p r : strings.TrimPrefix (p +:+ r) p = r.
Proof.
  unfold strings.TrimPrefix.
  rewrite HasPrefix_append. apply drop_bytes_append.
Qed.

Lemma Index_lower s sub : -1 <= strings.Index s sub.
Proof.
  induction s as [|c s IH]; simpl.
  - destruct sub; simpl; lia.
  - destruct (strings.HasPrefix (String c s) sub); [lia|].
    destruct (Z.ltb_spec (strings.Index s sub) 0); lia.
Qed.

Lemma Index_cons c s sub :
  strings.Index (String c s) sub
  = if strings.HasPrefix (String c s) sub then 0
    else if strings.Index s sub <? 0 then -1
         else strings.Index s sub + 1.
Proof. reflexivity. Qed.

(** Where [Index] finds the separator, the string splits around it. *)
Lemma Index_split s sub :
  0 <= strings.Index s sub ->
  s = strings.take_bytes (Z.to_nat (strings.Index s sub)) s
      +:+ sub
      +:+ strings.drop_bytes
            (Z.to_nat (strings.Index s sub) + String.length sub) s.
Proof.
  induction s as [|c s IH]; intros H.
  - simpl in H. destruct sub as [|d sub]; simpl in H; [reflexivity|lia].
  - rewrite Index_cons in *.
    destruct (strings.HasPrefix (String c s) sub) eqn:Hp.
    + change (Z.to_nat 0) with O. simpl strings.take_bytes.
      rewrite append_empty_l. apply HasPrefix_split, Hp.
    + destruct (Z.ltb_spec (strings.Index s sub) 0) as [|Hi]; [lia|].
      replace (Z.to_nat (strings.Index s sub + 1))
        with (S (Z.to_nat (strings.Index s sub))) by lia.
      simpl. rewrite append_cons. f_equal. apply IH, Hi.
Qed.

Lemma Contains_HasPrefix s p :
  strings.HasPrefix s p = true -> strings.Contains s p = true.
Proof.
  intros H. unfold strings.Contains.
  destruct s; simpl; simpl in H; rewrite H; reflexivity.
Qed.

Lemma Contains_append_r b a p :
  strings.Contains a p = true -> strings.Contains (b +:+ a) p = true.
Proof.
  unfold strings.Contains. intros H.
  induction b as [|c b IH]; [exact H|].
  rewrite append_cons, Index_cons.
  destruct (strings.HasPrefix _ p); [reflexivity|].
  apply Z.leb_le in IH.
  destruct (Z.ltb_spec (strings.Index (b +:+ a) p) 0); [lia|].
  apply Z.leb_le. lia.
Qed.

Lemma Cut_found s sep before after :
  strings.Cut s sep = (before, after, true) ->
  before +:+ sep +:+ after = s.
Proof.
  unfold strings.Cut.
  destruct (Z.leb_spec 0 (strings.Index s sep)) as [Hi|Hi].
  - intros [= <- <-]. symmetry. apply Index_split, Hi.
  - discriminate.
Qed.

Lemma Cut_not_found s sep before after :
  strings.Cut s sep = (before, after, false) ->
  strings.Contains s sep = false /\ before = s /\ after = EmptyString.
Proof.
  unfold strings.Cut, strings.Contains.
  destruct (0 <=? strings.Index s sep); [discriminate|].
  intros [= <- <-]. auto.
Qed.

(** A value that starts with [p] makes the whole entry contain [p]. *)
Lemma Cut_value_prefix_Contains e sep name value p :
  strings.Cut e sep = (name, value, true) ->
  strings.HasPrefix value p = true ->
  strings.Contains e p = true.
Proof.
  intros Hcut Hp. apply Cut_found in Hcut. subst e.
  do 2 apply Contains_append_r. apply Contains_HasPrefix, Hp.
Qed.

End StringFacts.

Arguments strings.HasPrefix : simpl never.
Arguments strings.Index : simpl never.
Arguments strings.Contains : simpl never.
Arguments strings.Cut : simpl never.
Arguments strings.SplitN : simpl never.
Arguments resolveSecret : simpl never.

(** ** The environment resolution loop *)

Section Pipeline.

Variable w : world.

Lemma malformed_Cut e :
  malformed e = true -> strings.Cut e "=" = (e, EmptyString, false).
Proof.
  unfold malformed, strings.Cut, strings.Contains.
  destruct (0 <=? strings.Index e "="); [discriminate|reflexivity].
Qed.

Lemma Cut_found_well_formed e name value :
  strings.Cut e "=" = (name, value, true) -> malformed e = false.
Proof.
  unfold malformed, strings.Cut, strings.Contains.
  destruct (0 <=? strings.Index e "="); [reflexivity|discriminate].
Qed.

Lemma no_secrets_existsb env :
  Forall (fun e => strings.Contains e secretPrefix = false) env ->
  existsb (fun e => strings.Contains e secretPrefix) env = false.
Proof.
  induction 1 as [|e env He _ IH]; [reflexivity|].
  simpl. rewrite He, IH. reflexivity.
Qed.

Lemma some_secret_existsb env :
  Exists (fun e => strings.Contains e secretPrefix = true) env ->
  existsb (fun e => strings.Contains e secretPrefix) env = true.
Proof.
  induction 1 as [e env He|e env _ IH]; simpl.
  - rewrite He. reflexivity.
  - rewrite IH. apply orb_true_r.
Qed.

Lemma existsb_false_Forall env :
  existsb (fun e => strings.Contains e secretPrefix) env = false ->
  Forall (fun e => strings.Contains e secretPrefix = false) env.
Proof.
  induction env as [|e env IH]; simpl; intros H; constructor.
  - apply orb_false_iff in H. tauto.
  - apply IH. apply orb_false_iff in H. tauto.
Qed.

(** What the loop returns: without error, the accumulated slice extended
    by the resolved entries; with an error, a nil slice and the wrapped
    error of the first entry that failed. *)
Lemma resolveSecrets_loop_spec env :
  forall acc h out err h',
    resolveSecrets_loop w env acc h = (out, err, h') ->
    match err with
    | None => exists out', out = acc ++ out' /\ resolved_entries w env h out' h'
    | Some e =>
        out = [] /\
        exists name inner,
          e = FailedToResolve name inner /\ first_failure w env h name inner h'
    end.
Proof.
  induction env as [|e env IH]; intros acc h out err h' Hrun.
  - simpl in Hrun. unfold ret in Hrun.
    injection Hrun as <- <- <-. exists []. split.
    + symmetry. apply app_nil_r.
    + constructor.
  - simpl in Hrun.
    destruct (strings.Cut e "=") as [[name value] found] eqn:Hcut.
    destruct found; simpl in Hrun.
    + destruct (strings.HasPrefix value secretPrefix) eqn:Hpre.
      * unfold bind in Hrun.
        destruct (resolveSecret w value h) as [[resolved rerr] h1] eqn:Hres.
        destruct rerr as [inner|].
        -- unfold ret in Hrun.
           injection Hrun as <- <- <-. split; [reflexivity|].
           exists name, inner. split; [reflexivity|].
           exists [], e, env, [], h, value, resolved.
           repeat split; auto. constructor.
        -- apply IH in Hrun. destruct err as [e'|].
           ++ destruct Hrun as [-> (n & inner & -> & Hf)].
              split; [reflexivity|]. exists n, inner. split; [reflexivity|].
              destruct Hf as (bef & e0 & aft & o & h2 & v & r & -> & Hb & Hrest).
              exists (e :: bef), e0, aft, ((name +:+ "=" +:+ resolved) :: o),
                h2, v, r.
              split; [reflexivity|]. split; [|exact Hrest].
              eapply resolved_secret; eauto.
           ++ destruct Hrun as (out' & -> & Hr).
              exists ((name +:+ "=" +:+ resolved) :: out'). split.
              ** rewrite <- app_assoc. reflexivity.
              ** eapply resolved_secret; eauto.
      * apply IH in Hrun. destruct err as [e'|].
        -- destruct Hrun as [-> (n & inner & -> & Hf)].
           split; [reflexivity|]. exists n, inner. split; [reflexivity|].
           destruct Hf as (bef & e0 & aft & o & h2 & v & r & -> & Hb & Hrest).
           exists (e :: bef), e0, aft, (e :: o), h2, v, r.
           split; [reflexivity|]. split; [|exact Hrest].
           eapply resolved_keep; eauto.
        -- destruct Hrun as (out' & -> & Hr).
           rewrite (Cut_found _ _ _ _ Hcut).
           exists (e :: out'). split.
           ++ rewrite <- app_assoc. reflexivity.
           ++ eapply resolved_keep; eauto.
    + apply IH in Hrun.
      assert (Hm : malformed e = true).
      { apply Cut_not_found in Hcut as [Hc _]. unfold malformed.
        rewrite Hc. reflexivity. }
      destruct err as [e'|].
      * destruct Hrun as [-> (n & inner & -> & Hf)].
        split; [reflexivity|]. exists n, inner. split; [reflexivity|].
        destruct Hf as (bef & e0 & aft & o & h2 & v & r & -> & Hb & Hrest).
        exists (e :: bef), e0, aft, o, h2, v, r.
        split; [reflexivity|]. split; [|exact Hrest].
        apply resolved_drop; assumption.
      * destruct Hrun as (out' & -> & Hr).
        exists out'. split; [reflexivity|].
        apply resolved_drop; assumption.
Qed.

(** No entry of a resolved environment is malformed. *)
Lemma resolved_entries_well_formed env h out h' :
  resolved_entries w env h out h' ->
  Forall (fun e => malformed e = false) out.
Proof.
  induction 1 as [| | e name value env h out h' Hcut _ _ IH
                  | e name value resolved env h h1 out h' Hcut _ _ _ IH];
    auto; constructor; auto.
  - eapply Cut_found_well_formed, Hcut.
  - unfold malformed.
    rewrite (Contains_append_r name ("=" +:+ resolved) "="); reflexivity.
Qed.

(** An entry without ["="] does not influence the loop. *)
Lemma resolveSecrets_loop_skips_malformed before e after :
  malformed e = true ->
  forall acc h,
    resolveSecrets_loop w (before ++ e :: after) acc h
    = resolveSecrets_loop w (before ++ after) acc h.
Proof.
  intros Hm. induction before as [|b before IH]; intros acc h.
  - simpl. rewrite (malformed_Cut e Hm). reflexivity.
  - simpl. destruct (strings.Cut b "=") as [[name value] found].
    destruct found; simpl; [|apply IH].
    destruct (strings.HasPrefix value secretPrefix); [|apply IH].
    unfold bind. destruct (resolveSecret w value h) as [[resolved rerr] h1].
    destruct rerr; [reflexivity|apply IH].
Qed.

End Pipeline.

(** ** The whole pipeline *)

(** The fast path: nothing contains the prefix, nothing is done. *)
Lemma resolveSecrets_fast_path w env h :
  Forall (fun e => strings.Contains e secretPrefix = false) env ->
  resolveSecrets w env h = (env, None, h).
Proof.
  intros Hnone. unfold resolveSecrets.
  rewrite (no_secrets_existsb env Hnone). reflexivity.
Qed.

(** C9.  When no entry contains the prefix, [resolveSecrets] returns its
    input, in the same order, and the history is untouched: the SDK
    configuration is not loaded, no client is built, nothing is fetched. *)
Theorem resolveSecrets_without_references (w : world) (env : list string)
    (h : history) :
  Forall (fun e => strings.Contains e secretPrefix = false) env ->
  resolveSecrets w env h = (env, None, h).
Proof.
  intros Hnone. unfold resolveSecrets.
  assert (Hscan : existsb (fun e => strings.Contains e secretPrefix) env
                  = false) by apply no_secrets_existsb, Hnone.
  rewrite Hscan. reflexivity.
Qed.

Lemma resolveSecrets_without_references_witness :
  resolveSecrets world_without_config
    ["NORMAL=value"; "MALFORMED"; "PATH=/usr/bin"] []
  = (["NORMAL=value"; "MALFORMED"; "PATH=/usr/bin"], None, []).
Proof.
  apply (resolveSecrets_without_references world_without_config
           ["NORMAL=value"; "MALFORMED"; "PATH=/usr/bin"] []).
  repeat constructor.
Defined.

(** The slow path, once the configuration is loaded, is the loop. *)
Lemma resolveSecrets_slow_path w env h :
  Exists (fun e => strings.Contains e secretPrefix = true) env ->
  resolveSecrets w env h
  = match LoadDefaultConfig w h with
    | Some err => ([], Some (FailedToLoadConfig err), h ++ [CallLoadDefaultConfig])
    | None => resolveSecrets_loop w env [] (h ++ [CallLoadDefaultConfig])
    end.
Proof.
  intros Hsome. unfold resolveSecrets.
  rewrite (some_secret_existsb env Hsome). simpl.
  unfold bind, call_LoadDefaultConfig.
  destruct (LoadDefaultConfig w h); reflexivity.
Qed.

Lemma resolveSecrets_cases w env h out err h' :
  resolveSecrets w env h = (out, err, h') ->
  (Forall (fun e => strings.Contains e secretPrefix = false) env
   /\ out = env /\ err = None /\ h' = h)
  \/ (exists cause,
        LoadDefaultConfig w h = Some cause
        /\ out = [] /\ err = Some (FailedToLoadConfig cause)
        /\ h' = h ++ [CallLoadDefaultConfig])
  \/ (LoadDefaultConfig w h = None
      /\ resolveSecrets_loop w env [] (h ++ [CallLoadDefaultConfig])
         = (out, err, h')).
Proof.
  unfold resolveSecrets.
  destruct (existsb _ env) eqn:Hex; simpl.
  - unfold bind, call_LoadDefaultConfig.
    destruct (LoadDefaultConfig w h) as [cause|]; intros Hrun.
    + right; left. exists cause. unfold ret in Hrun.
      injection Hrun as <- <- <-. auto.
    + right; right. auto.
  - unfold ret. intros [= <- <- <-]. left.
    split; [apply existsb_false_Forall, Hex|auto].
Qed.

(** C1 (amended).  A call either succeeds, and then every entry whose
    value starts with the prefix has been resolved and the whole sequence
    is returned, or it returns an error with a nil slice.  The error is
    either the failure to load the SDK configuration, raised before any
    entry is looked at and naming no entry, or ["failed to resolve KEY: "]
    followed by the resolver's own error, where KEY is the key of the first
    entry that failed: the pipeline puts the key, and not the value, in
    front of the resolver's error. *)
Theorem resolveSecrets_all_or_nothing (w : world) (env : list string)
    (h : history) (out : list string) (err : option error) (h' : history) :
  resolveSecrets w env h = (out, err, h') ->
  match err with
  | None => fully_resolved w env h out h'
  | Some e =>
      out = [] /\
      ((exists cause,
          LoadDefaultConfig w h = Some cause
          /\ e = FailedToLoadConfig cause
          /\ h' = h ++ [CallLoadDefaultConfig])
       \/ (exists name inner,
             e = FailedToResolve name inner
             /\ first_failure w env (h ++ [CallLoadDefaultConfig]) name inner h'
             /\ Error e = "failed to resolve " +:+ name +:+ ": " +:+ Error inner))
  end.
Proof.
  intros Hrun.
  destruct (resolveSecrets_cases w env h out err h' Hrun)
    as [(Hnone & -> & -> & ->)|[(cause & Hcfg & -> & -> & ->)|[Hcfg Hloop]]].
  - left. auto.
  - split; [reflexivity|]. left. exists cause. auto.
  - apply resolveSecrets_loop_spec in Hloop. destruct err as [e|].
    + destruct Hloop as [-> (name & inner & -> & Hfail)].
      split; [reflexivity|]. right. exists name, inner. auto.
    + destruct Hloop as (out' & -> & Hres). right. auto.
Qed.

Lemma resolveSecrets_all_or_nothing_witness :
  ([] : list string) = [] /\
  ((exists cause,
      LoadDefaultConfig (world_serving "s3cr3t") [] = Some cause
      /\ FailedToResolve "BAD" EmptyName = FailedToLoadConfig cause
      /\ [CallLoadDefaultConfig; CallGetSecretValue "db"]
         = [] ++ [CallLoadDefaultConfig])
   \/ (exists name inner,
         FailedToResolve "BAD" EmptyName = FailedToResolve name inner
         /\ first_failure (world_serving "s3cr3t")
              ["A=1"; "DB=aws-secret:db"; "BAD=aws-secret:#k"; "C=aws-secret:c"]
              ([] ++ [CallLoadDefaultConfig]) name inner
              [CallLoadDefaultConfig; CallGetSecretValue "db"]
         /\ Error (FailedToResolve "BAD" EmptyName)
            = "failed to resolve " +:+ name +:+ ": " +:+ Error inner)).
Proof.
  apply (resolveSecrets_all_or_nothing (world_serving "s3cr3t")
           ["A=1"; "DB=aws-secret:db"; "BAD=aws-secret:#k"; "C=aws-secret:c"]
           [] [] (Some (FailedToResolve "BAD" EmptyName))
           [CallLoadDefaultConfig; CallGetSecretValue "db"]).
  vm_compute. reflexivity.
Defined.

(** C1 as claimed fails where the SDK configuration cannot be loaded: the
    call returns ["failed to load AWS config: ..."], which names no key. *)
Lemma config_error_names_no_key :
  resolveSecrets world_without_config ["A=aws-secret:x"] []
  = ([], Some (FailedToLoadConfig (External "no credentials")),
     [CallLoadDefaultConfig])
  /\ Error (FailedToLoadConfig (External "no credentials"))
     = "failed to load AWS config: no credentials"
  /\ ~ all_or_key_error world_without_config ["A=aws-secret:x"] [].
Proof.
  assert (Hrun : resolveSecrets world_without_config ["A=aws-secret:x"] []
                 = ([], Some (FailedToLoadConfig (External "no credentials")),
                    [CallLoadDefaultConfig])) by (vm_compute; reflexivity).
  split; [exact Hrun|]. split; [reflexivity|].
  unfold all_or_key_error. rewrite Hrun.
  intros [_ (name & inner & Habs & _)]. discriminate Habs.
Qed.

(** Well-formed entries none of whose values is a reference pass through
    the loop as they are, without any call to the outside. *)
Lemma resolveSecrets_loop_no_references w env :
  Forall (fun e => value_is_reference e = false) env ->
  forall acc h,
    resolveSecrets_loop w env acc h
    = (acc ++ filter (fun e => malformed e = false) env, None, h).
Proof.
  induction 1 as [|e env He _ IH]; intros acc h.
  - simpl. rewrite app_nil_r. reflexivity.
  - simpl. unfold value_is_reference in He.
    destruct (strings.Cut e "=") as [[name value] found] eqn:Hcut.
    destruct found; simpl in *.
    + rewrite He, IH, <- app_assoc.
      rewrite (Cut_found _ _ _ _ Hcut).
      rewrite filter_cons_True by (eapply Cut_found_well_formed, Hcut).
      reflexivity.
    + rewrite IH. rewrite filter_cons_False; [reflexivity|].
      apply Cut_not_found in Hcut as [Hc _]. unfold malformed.
      rewrite Hc. discriminate.
Qed.

(** Whatever the outcome of the slow path, its output holds no entry
    without ["="]. *)
Lemma resolveSecrets_slow_path_well_formed w env h out err h' :
  Exists (fun e => strings.Contains e secretPrefix = true) env ->
  resolveSecrets w env h = (out, err, h') ->
  Forall (fun e => malformed e = false) out.
Proof.
  intros Hsome Hrun. rewrite (resolveSecrets_slow_path w env h Hsome) in Hrun.
  destruct (LoadDefaultConfig w h).
  - injection Hrun as <- <- <-. constructor.
  - apply resolveSecrets_loop_spec in Hrun. destruct err.
    + destruct Hrun as [-> _]. constructor.
    + destruct Hrun as (out' & -> & Hres).
      eapply resolved_entries_well_formed, Hres.
Qed.

(** An entry that does not contain the prefix is no reference. *)
Lemma no_prefix_no_reference e :
  strings.Contains e secretPrefix = false -> value_is_reference e = false.
Proof.
  intros Hno. unfold value_is_reference.
  destruct (strings.Cut e "=") as [[name value] found] eqn:Hcut.
  destruct found; [|reflexivity]. cbn [andb].
  destruct (strings.HasPrefix value secretPrefix) eqn:Hp; [|reflexivity].
  rewrite (Cut_value_prefix_Contains _ _ _ _ _ Hcut Hp) in Hno.
  discriminate Hno.
Qed.

Lemma malformed_no_reference e :
  malformed e = true -> value_is_reference e = false.
Proof.
  intros Hm. unfold value_is_reference.
  rewrite (malformed_Cut e Hm). reflexivity.
Qed.

(** An entry without ["="] that holds the prefix, among entries that do not
    hold it: the call takes the slow path because of that entry alone. *)
Lemma resolveSecrets_malformed_with_prefix w before e after h :
  malformed e = true ->
  strings.Contains e secretPrefix = true ->
  Forall (fun e => strings.Contains e secretPrefix = false) (before ++ after) ->
  resolveSecrets w (before ++ e :: after) h
  = match LoadDefaultConfig w h with
    | Some cause =>
        ([], Some (FailedToLoadConfig cause), h ++ [CallLoadDefaultConfig])
    | None =>
        (filter (fun e => malformed e = false) (before ++ after), None,
         h ++ [CallLoadDefaultConfig])
    end.
Proof.
  intros Hm Hp Hnone.
  rewrite resolveSecrets_slow_path
    by (apply Exists_app; right; apply Exists_cons_hd, Hp).
  destruct (LoadDefaultConfig w h); [reflexivity|].
  rewrite resolveSecrets_loop_skips_malformed by exact Hm.
  apply (resolveSecrets_loop_no_references w (before ++ after)).
  eapply Forall_impl; [exact Hnone|]. intros x. apply no_prefix_no_reference.
Qed.

(** C2 (amended).  Entries without ["="] are dropped only when some entry
    contains the prefix: then the output never holds such an entry.  When
    another entry contains the prefix, the entry without ["="] changes
    nothing at all: the call returns what it returns without it.  When the
    entry without ["="] contains the prefix itself and no other entry does,
    it alone puts the call on the slow path: without it the input comes
    back as it is; with it the SDK configuration is loaded, the call fails
    if that fails, and returns the entries with ["="] otherwise.  So an
    entry without ["="] makes a call fail in that one way only: any other
    failure is the failure of the call without the entry.  When no entry
    contains the prefix the input comes back as it is, and ["MALFORMED";
    "GOOD=value"] yields ["MALFORMED"; "GOOD=value"]. *)
Theorem malformed_entries_dropped_on_slow_path_only (w : world) (h : history) :
  (forall env out err h',
     Exists (fun e => strings.Contains e secretPrefix = true) env ->
     resolveSecrets w env h = (out, err, h') ->
     Forall (fun e => malformed e = false) out)
  /\ (forall before e after,
        malformed e = true ->
        Exists (fun e => strings.Contains e secretPrefix = true)
          (before ++ after) ->
        resolveSecrets w (before ++ e :: after) h
        = resolveSecrets w (before ++ after) h)
  /\ (forall before e after,
        malformed e = true ->
        strings.Contains e secretPrefix = true ->
        Forall (fun e => strings.Contains e secretPrefix = false)
          (before ++ after) ->
        resolveSecrets w (before ++ after) h = (before ++ after, None, h)
        /\ resolveSecrets w (before ++ e :: after) h
           = match LoadDefaultConfig w h with
             | Some cause =>
                 ([], Some (FailedToLoadConfig cause),
                  h ++ [CallLoadDefaultConfig])
             | None =>
                 (filter (fun e => malformed e = false) (before ++ after),
                  None, h ++ [CallLoadDefaultConfig])
             end)
  /\ (forall before e after out failure h',
        malformed e = true ->
        resolveSecrets w (before ++ e :: after) h = (out, Some failure, h') ->
        resolveSecrets w (before ++ after) h = (out, Some failure, h')
        \/ (strings.Contains e secretPrefix = true
            /\ Forall (fun e => strings.Contains e secretPrefix = false)
                 (before ++ after)
            /\ exists cause,
                 LoadDefaultConfig w h = Some cause
                 /\ failure = FailedToLoadConfig cause))
  /\ (forall env,
        Forall (fun e => strings.Contains e secretPrefix = false) env ->
        resolveSecrets w env h = (env, None, h))
  /\ resolveSecrets w ["MALFORMED"; "GOOD=value"] h
     = (["MALFORMED"; "GOOD=value"], None, h).
Proof.
  assert (Hskip : forall before e after,
            malformed e = true ->
            Exists (fun e => strings.Contains e secretPrefix = true)
              (before ++ after) ->
            resolveSecrets w (before ++ e :: after) h
            = resolveSecrets w (before ++ after) h).
  { intros before e after Hm Hsome.
    rewrite !resolveSecrets_slow_path; auto.
    - destruct (LoadDefaultConfig w h); [reflexivity|].
      apply resolveSecrets_loop_skips_malformed, Hm.
    - apply Exists_app in Hsome as [Hb|Ha]; apply Exists_app; auto. }
  split; [|split; [exact Hskip|split; [|split; [|split]]]].
  - intros env out err h' Hsome Hrun.
    eapply resolveSecrets_slow_path_well_formed; eauto.
  - intros before e after Hm Hp Hnone. split.
    + apply resolveSecrets_fast_path, Hnone.
    + apply resolveSecrets_malformed_with_prefix; assumption.
  - intros before e after out failure h' Hm Hrun.
    destruct (existsb (fun e => strings.Contains e secretPrefix)
                (before ++ after)) eqn:Hex.
    + left. rewrite <- Hrun. symmetry. apply Hskip; [exact Hm|].
      apply existsb_exists in Hex as (x & Hin & Hx).
      apply Exists_exists. exists x. split; [|exact Hx].
      apply list_elem_of_In, Hin.
    + apply existsb_false_Forall in Hex.
      destruct (strings.Contains e secretPrefix) eqn:Hp.
      * right. split; [reflexivity|]. split; [exact Hex|].
        rewrite (resolveSecrets_malformed_with_prefix w before e after h
                   Hm Hp Hex) in Hrun.
        destruct (LoadDefaultConfig w h) as [cause|]; [|discriminate Hrun].
        exists cause. injection Hrun as _ <- _. auto.
      * rewrite resolveSecrets_fast_path in Hrun; [discriminate Hrun|].
        apply Forall_app in Hex as [Hb Ha]. apply Forall_app.
        split; [exact Hb|]. constructor; assumption.
  - intros env. apply resolveSecrets_fast_path.
  - apply resolveSecrets_fast_path. repeat constructor.
Qed.

Lemma malformed_entries_dropped_on_slow_path_only_witness :
  Forall (fun e => malformed e = false) ["GOOD=value"; "S=s3cr3t"]
  /\ resolveSecrets (world_serving "s3cr3t")
       (["GOOD=value"] ++ "MALFORMED" :: ["S=aws-secret:s"]) []
     = (["GOOD=value"; "S=s3cr3t"], None,
        [CallLoadDefaultConfig; CallGetSecretValue "s"])
  /\ (resolveSecrets world_without_config ([] ++ ["GOOD=value"]) []
      = ([] ++ ["GOOD=value"], None, [])
      /\ resolveSecrets world_without_config
           ([] ++ "MALFORMED_aws-secret:x" :: ["GOOD=value"]) []
         = ([], Some (FailedToLoadConfig (External "no credentials")),
            [CallLoadDefaultConfig]))
  /\ (resolveSecrets world_without_config
        ([] ++ ["GOOD=value"]) []
      = ([], Some (FailedToLoadConfig (External "no credentials")),
         [CallLoadDefaultConfig])
      \/ (strings.Contains "MALFORMED_aws-secret:x" secretPrefix = true
          /\ Forall (fun e => strings.Contains e secretPrefix = false)
               ([] ++ ["GOOD=value"])
          /\ exists cause,
               LoadDefaultConfig world_without_config [] = Some cause
               /\ FailedToLoadConfig (External "no credentials")
                  = FailedToLoadConfig cause))
  /\ resolveSecrets (world_serving "s3cr3t") ["MALFORMED"; "GOOD=value"] []
     = (["MALFORMED"; "GOOD=value"], None, []).
Proof.
  destruct (malformed_entries_dropped_on_slow_path_only
              (world_serving "s3cr3t") [])
    as (Hdrop & Hskip & _ & _ & _ & Hfast).
  destruct (malformed_entries_dropped_on_slow_path_only
              world_without_config []) as (_ & _ & Halone & Hfail & _).
  split; [|split; [|split; [|split]]].
  - apply (Hdrop ["GOOD=value"; "MALFORMED"; "S=aws-secret:s"]
             ["GOOD=value"; "S=s3cr3t"] None
             [CallLoadDefaultConfig; CallGetSecretValue "s"]).
    + right. right. left. reflexivity.
    + vm_compute. reflexivity.
  - rewrite (Hskip ["GOOD=value"] "MALFORMED" ["S=aws-secret:s"]).
    + vm_compute. reflexivity.
    + reflexivity.
    + right. left. reflexivity.
  - apply (Halone [] "MALFORMED_aws-secret:x" ["GOOD=value"]).
    + reflexivity.
    + reflexivity.
    + repeat constructor.
  - apply (Hfail [] "MALFORMED_aws-secret:x" ["GOOD=value"] []
             (FailedToLoadConfig (External "no credentials"))
             [CallLoadDefaultConfig]).
    + reflexivity.
    + vm_compute. reflexivity.
  - exact Hfast.
Defined.

(** C2 as claimed fails at its own example: nothing in ["MALFORMED";
    "GOOD=value"] contains the prefix, so the entry without ["="] stays. *)
Lemma malformed_entry_kept_on_fast_path :
  resolveSecrets (world_serving "s3cr3t") ["MALFORMED"; "GOOD=value"] []
  = (["MALFORMED"; "GOOD=value"], None, [])
  /\ fst (fst (resolveSecrets (world_serving "s3cr3t")
                 ["MALFORMED"; "GOOD=value"] []))
     <> ["GOOD=value"].
Proof.
  split; [vm_compute; reflexivity|].
  vm_compute. discriminate.
Qed.

(** C10.  Whether an entry without ["="] is dropped depends on the whole
    input.  When no entry contains ["aws-secret:"], the input is returned
    as it is, entries without ["="] included.  When some entry contains it,
    anywhere, the output holds no entry without ["="]; a successful call
    returns the entries resolved in order, where an entry whose value does
    not start with the prefix is kept as it is; and when no value starts
    with the prefix (it only occurs in a key or inside a value) the output
    is exactly the entries with ["="], nothing being resolved. *)
Theorem malformed_entries_depend_on_whole_input (w : world)
    (env : list string) (h : history) :
  (Forall (fun e => strings.Contains e secretPrefix = false) env ->
   resolveSecrets w env h = (env, None, h))
  /\ (Exists (fun e => strings.Contains e secretPrefix = true) env ->
      (forall out err h',
         resolveSecrets w env h = (out, err, h') ->
         Forall (fun e => malformed e = false) out
         /\ (err = None ->
             resolved_entries w env (h ++ [CallLoadDefaultConfig]) out h'))
      /\ (Forall (fun e => value_is_reference e = false) env ->
          LoadDefaultConfig w h = None ->
          resolveSecrets w env h
          = (filter (fun e => malformed e = false) env, None,
             h ++ [CallLoadDefaultConfig]))).
Proof.
  split; [apply resolveSecrets_fast_path|].
  intros Hsome. split.
  - intros out err h' Hrun. split.
    + eapply resolveSecrets_slow_path_well_formed; eauto.
    + intros ->. rewrite (resolveSecrets_slow_path w env h Hsome) in Hrun.
      destruct (LoadDefaultConfig w h); [discriminate|].
      apply resolveSecrets_loop_spec in Hrun.
      destruct Hrun as (out' & -> & Hres). exact Hres.
  - intros Hplain Hcfg.
    rewrite (resolveSecrets_slow_path w env h Hsome), Hcfg.
    apply (resolveSecrets_loop_no_references w env Hplain []).
Qed.

Lemma malformed_entries_depend_on_whole_input_witness :
  resolveSecrets (world_serving "s3cr3t") ["MALFORMED"; "GOOD=value"] []
  = (["MALFORMED"; "GOOD=value"], None, [])
  /\ resolveSecrets (world_serving "s3cr3t")
       ["MALFORMED"; "aws-secret:KEY=v"; "NOTE=see aws-secret:x"] []
     = (["aws-secret:KEY=v"; "NOTE=see aws-secret:x"], None,
        [CallLoadDefaultConfig]).
Proof.
  split.
  - apply (malformed_entries_depend_on_whole_input (world_serving "s3cr3t")
             ["MALFORMED"; "GOOD=value"] []).
    repeat constructor.
  - apply (malformed_entries_depend_on_whole_input (world_serving "s3cr3t")
             ["MALFORMED"; "aws-secret:KEY=v"; "NOTE=see aws-secret:x"] []).
    + right. left. reflexivity.
    + repeat constructor.
    + reflexivity.
Defined.

(** ** The reference resolver *)

Lemma SplitN_2 s sep :
  strings.SplitN s sep 2
  = if strings.Index s sep <? 0 then [s]
    else [strings.take_bytes (Z.to_nat (strings.Index s sep)) s;
          strings.drop_bytes
            (Z.to_nat (strings.Index s sep) + String.length sep) s].
Proof. reflexivity. Qed.

(** The two indexings [parts[0]] and [parts[1]] of [resolveSecret] are in
    range: [SplitN] with n = 2 gives one part or two, and [parts[1]] is
    read only when there are not one. *)
Lemma SplitN_2_length s sep :
  length (strings.SplitN s sep 2) = 1%nat
  \/ length (strings.SplitN s sep 2) = 2%nat.
Proof.
  rewrite SplitN_2. destruct (strings.Index s sep <? 0); auto.
Qed.

(** [split_first_hash] and [strings.Index] agree on where the first ["#"]
    is. *)
Lemma split_first_hash_Index s :
  match split_first_hash s with
  | (name, None) => strings.Index s "#" = -1 /\ name = s
  | (name, Some key) =>
      strings.Index s "#" = Z.of_nat (String.length name)
      /\ strings.take_bytes (String.length name) s = name
      /\ strings.drop_bytes (String.length name + 1) s = key
  end.
Proof.
  induction s as [|c s IH]; [split; reflexivity|].
  rewrite Index_cons. simpl split_first_hash.
  change (strings.HasPrefix (String c s) "#") with (Ascii.eqb c "#" && true).
  rewrite andb_true_r.
  destruct (Ascii.eqb c "#"); [repeat split|].
  destruct (split_first_hash s) as [name [key|]].
  - destruct IH as (Hi & Ht & Hd). rewrite Hi.
    destruct (Z.ltb_spec (Z.of_nat (String.length name)) 0); [lia|].
    repeat split.
    + simpl String.length. lia.
    + simpl. rewrite Ht. reflexivity.
    + exact Hd.
  - destruct IH as [Hi ->]. rewrite Hi. split; reflexivity.
Qed.

Lemma SplitN_first_hash s :
  strings.SplitN s "#" 2
  = match split_first_hash s with
    | (name, None) => [name]
    | (name, Some key) => [name; key]
    end.
Proof.
  rewrite SplitN_2. pose proof (split_first_hash_Index s) as H.
  destruct (split_first_hash s) as [name [key|]].
  - destruct H as (Hi & Ht & Hd). rewrite Hi.
    destruct (Z.ltb_spec (Z.of_nat (String.length name)) 0); [lia|].
    rewrite Nat2Z.id, Ht. simpl String.length. rewrite Hd. reflexivity.
  - destruct H as [Hi ->]. rewrite Hi. reflexivity.
Qed.

(** The left part holds no ["#"], and the parts give the string back. *)
Lemma split_first_hash_parts s :
  match split_first_hash s with
  | (name, None) => name = s /\ strings.Contains s "#" = false
  | (name, Some key) =>
      s = name +:+ "#" +:+ key /\ strings.Contains name "#" = false
  end.
Proof.
  induction s as [|c s IH]; [split; reflexivity|].
  simpl split_first_hash. unfold strings.Contains in *.
  destruct (Ascii.eqb_spec c "#") as [->|Hc]; [split; reflexivity|].
  assert (Hp : forall t, strings.HasPrefix (String c t) "#" = false).
  { intros t. change (Ascii.eqb c "#" && true = false).
    rewrite andb_true_r. apply Ascii.eqb_neq, Hc. }
  destruct (split_first_hash s) as [name [key|]].
  - destruct IH as [-> Hl]. split; [reflexivity|].
    rewrite Index_cons, Hp. apply Z.leb_gt in Hl.
    destruct (Z.ltb_spec (strings.Index name "#") 0); [reflexivity|lia].
  - destruct IH as [-> Hl]. split; [reflexivity|].
    rewrite Index_cons, Hp. apply Z.leb_gt in Hl.
    destruct (Z.ltb_spec (strings.Index s "#") 0); [reflexivity|lia].
Qed.

(** [resolveSecret] on a prefixed reference does what the grammar says. *)
Lemma resolveSecret_classify w remainder h :
  resolveSecret w (secretPrefix +:+ remainder) h
  = match classify remainder with
    | inl err => (EmptyString, Some err, h)
    | inr r => resolve_reference w r h
    end.
Proof.
  unfold resolveSecret. rewrite TrimPrefix_append.
  destruct remainder as [|c rest]; [reflexivity|].
  change (String.eqb (String c rest) "") with false. cbv iota.
  unfold classify.
  destruct (strings.HasPrefix (String c rest) ssmReferencePath);
    [reflexivity|].
  rewrite SplitN_first_hash.
  destruct (split_first_hash (String c rest)) as [name [key|]].
  - destruct name as [|n name]; [reflexivity|].
    change (String.eqb (index_parts [String n name; key] 0) "") with false.
    cbv iota. unfold bind, resolve_reference.
    destruct (getSecret w _ h) as [[raw [err|]] h']; [reflexivity|].
    unfold extract_key, call_Unmarshal, index_parts, ret. simpl.
    destruct (Unmarshal w raw) as [cause|parsed]; [reflexivity|].
    destruct (parsed !! key); reflexivity.
  - destruct name as [|n name]; [reflexivity|].
    change (String.eqb (index_parts [String n name] 0) "") with false.
    cbv iota. unfold bind, resolve_reference.
    destruct (getSecret w _ h) as [[raw [err|]] h']; reflexivity.
Qed.

(** C6.  On a reference that begins with the prefix, [resolveSecret]
    follows the parsing rules in order: an empty remainder is the
    EmptyReference error; a remainder that starts with
    ["/aws/reference/secretsmanager/"] is, whole, the path given to
    [getParameter], with no key extraction; otherwise the remainder is split
    at its first ["#"] only (the name holds no ["#"], the key is everything
    after it, so ["name#k1#k2"] gives name ["name"] and key ["k1#k2"]), and
    an empty name is the EmptyName error.  Neither error touches the
    outside. *)
Theorem resolveSecret_parsing_rules (w : world) (remainder : string)
    (h : history) :
  resolveSecret w (secretPrefix +:+ remainder) h
  = match classify remainder with
    | inl err => (EmptyString, Some err, h)
    | inr r => resolve_reference w r h
    end
  /\ match split_first_hash remainder with
     | (name, None) =>
         name = remainder /\ strings.Contains remainder "#" = false
     | (name, Some key) =>
         remainder = name +:+ "#" +:+ key /\ strings.Contains name "#" = false
     end
  /\ classify "name#k1#k2" = inr (SecretStoreWithKey "name" "k1#k2")
  /\ classify "" = inl EmptyReference
  /\ classify "#key" = inl EmptyName
  /\ classify "/aws/reference/secretsmanager/myapp/token#k"
     = inr (ParameterStorePath "/aws/reference/secretsmanager/myapp/token#k").
Proof.
  split; [apply resolveSecret_classify|].
  split; [apply split_first_hash_parts|repeat split].
Qed.

(** ** The fetch loops *)

(** Reduce the monadic plumbing and write the history as [h ++ events]. *)
Ltac flatten_history :=
  cbv beta iota zeta; rewrite <- ?app_assoc; cbn [app].

(** [getSecret], with its three iterations written out. *)
Lemma getSecret_unrolled w name h :
  getSecret w name h
  = let call := CallGetSecretValue name in
    let wait2 := wait_before_attempt 2 in
    let wait3 := wait_before_attempt 3 in
    match GetSecretValue w h name with
    | inr resp => (secret_payload resp, h ++ [call])
    | inl _ =>
        match ctx_Done w (h ++ [call]) wait2 with
        | Some err => (EmptyString, Some err, h ++ [call; ContextDone wait2])
        | None =>
            let h2 := h ++ [call; TimerFired wait2] in
            match GetSecretValue w h2 name with
            | inr resp =>
                (secret_payload resp, h ++ [call; TimerFired wait2; call])
            | inl _ =>
                let h3 := h ++ [call; TimerFired wait2; call] in
                match ctx_Done w h3 wait3 with
                | Some err =>
                    (EmptyString, Some err,
                     h ++ [call; TimerFired wait2; call; ContextDone wait3])
                | None =>
                    let h4 :=
                      h ++ [call; TimerFired wait2; call; TimerFired wait3] in
                    match GetSecretValue w h4 name with
                    | inr resp =>
                        (secret_payload resp,
                         h ++ [call; TimerFired wait2; call; TimerFired wait3;
                               call])
                    | inl e3 =>
                        (EmptyString,
                         Some (FailedAfterRetries maxRetries (Some e3)),
                         h ++ [call; TimerFired wait2; call; TimerFired wait3;
                               call])
                    end
                end
            end
        end
    end.
Proof.
  unfold getSecret. change (Z.to_nat maxRetries) with 3%nat.
  cbn [getSecret_loop].
  unfold bind, ret, call_GetSecretValue, secret_payload, select_Done_or_After.
  change (0 <? 0) with false. change (0 <? 0 + 1) with true.
  change (0 <? 0 + 1 + 1) with true. cbv iota.
  change (retryDelay * (0 + 1)) with (wait_before_attempt 2).
  change (retryDelay * (0 + 1 + 1)) with (wait_before_attempt 3).
  cbv beta iota zeta.
  destruct (GetSecretValue w h name) as [e1|r1]; cbv beta iota zeta;
    [|destruct (SecretString r1); reflexivity].
  destruct (ctx_Done w _ _); flatten_history; [reflexivity|].
  destruct (GetSecretValue w _ name) as [e2|r2]; flatten_history;
    [|destruct (SecretString r2); reflexivity].
  destruct (ctx_Done w _ _); flatten_history; [reflexivity|].
  destruct (GetSecretValue w _ name) as [e3|r3]; flatten_history;
    [|destruct (SecretString r3); reflexivity].
  reflexivity.
Qed.

(** [getParameter], with its three iterations written out. *)
Lemma getParameter_unrolled w name h :
  getParameter w name h
  = let call := CallGetParameter name true in
    let wait2 := wait_before_attempt 2 in
    let wait3 := wait_before_attempt 3 in
    match GetParameter w h name true with
    | inr resp => (parameter_payload resp, h ++ [call])
    | inl _ =>
        match ctx_Done w (h ++ [call]) wait2 with
        | Some err => (EmptyString, Some err, h ++ [call; ContextDone wait2])
        | None =>
            let h2 := h ++ [call; TimerFired wait2] in
            match GetParameter w h2 name true with
            | inr resp =>
                (parameter_payload resp, h ++ [call; TimerFired wait2; call])
            | inl _ =>
                let h3 := h ++ [call; TimerFired wait2; call] in
                match ctx_Done w h3 wait3 with
                | Some err =>
                    (EmptyString, Some err,
                     h ++ [call; TimerFired wait2; call; ContextDone wait3])
                | None =>
                    let h4 :=
                      h ++ [call; TimerFired wait2; call; TimerFired wait3] in
                    match GetParameter w h4 name true with
                    | inr resp =>
                        (parameter_payload resp,
                         h ++ [call; TimerFired wait2; call; TimerFired wait3;
                               call])
                    | inl e3 =>
                        (EmptyString,
                         Some (FailedAfterRetries maxRetries (Some e3)),
                         h ++ [call; TimerFired wait2; call; TimerFired wait3;
                               call])
                    end
                end
            end
        end
    end.
Proof.
  unfold getParameter. change (Z.to_nat maxRetries) with 3%nat.
  cbn [getParameter_loop].
  unfold bind, ret, call_GetParameter, parameter_payload, select_Done_or_After.
  change (0 <? 0) with false. change (0 <? 0 + 1) with true.
  change (0 <? 0 + 1 + 1) with true. cbv iota.
  change (retryDelay * (0 + 1)) with (wait_before_attempt 2).
  change (retryDelay * (0 + 1 + 1)) with (wait_before_attempt 3).
  cbv beta iota zeta.
  destruct (GetParameter w h name true) as [e1|r1]; cbv beta iota zeta;
    [|destruct (Param r1) as [p|]; [destruct (Value p)|]; reflexivity].
  destruct (ctx_Done w _ _); flatten_history; [reflexivity|].
  destruct (GetParameter w _ name true) as [e2|r2]; flatten_history;
    [|destruct (Param r2) as [p|]; [destruct (Value p)|]; reflexivity].
  destruct (ctx_Done w _ _); flatten_history; [reflexivity|].
  destruct (GetParameter w _ name true) as [e3|r3]; flatten_history;
    [|destruct (Param r3) as [p|]; [destruct (Value p)|]; reflexivity].
  reflexivity.
Qed.

Lemma format_d_maxRetries : format_d 3 = "3".
Proof. vm_compute. reflexivity. Qed.

Lemma Error_FailedAfterRetries e :
  Error (FailedAfterRetries 3 (Some e)) = "failed after 3 retries: " +:+ Error e.
Proof.
  change (Error (FailedAfterRetries 3 (Some e)))
    with ("failed after " +:+ format_d 3 +:+ " retries: " +:+ Error e).
  rewrite format_d_maxRetries. reflexivity.
Qed.

(** Where a timer fired inside a concrete course, the context had let
    it. *)
Ltac timer_positions before Hcourse :=
  repeat (destruct before as [|? before]; cbn [app] in Hcourse;
          [ first [ discriminate Hcourse
                  | injection Hcourse as <- <-; cbn [app]; assumption ]
          | first [ discriminate Hcourse
                  | injection Hcourse as <- Hcourse ] ]).

(** The bookkeeping of one course [init ++ [last]] of a fetch loop, once
    the answers that led to it are hypotheses. *)
Ltac course_ends init last :=
  exists (init ++ [last]);
  split; [reflexivity|];
  split; [unfold retry_courses; cbn [app];
          repeat first [apply list_elem_of_here | apply list_elem_of_further]|];
  split; [cbn; lia|];
  split; [intros before d after Hcourse; cbn [app] in Hcourse;
          timer_positions before Hcourse|];
  split;
  [ intros before d Hcourse;
    apply app_inj_tail in Hcourse as [<- Hlast];
    first [ discriminate Hlast
          | injection Hlast as <-;
            match goal with
            | Hdone : ctx_Done _ _ _ = Some _ |- _ =>
                cbn [app]; rewrite Hdone; eauto
            end ]
  | intros before ? Hcourse Hfail;
    apply app_inj_tail in Hcourse as [<- Hlast];
    first [ discriminate Hlast
          | match goal with
            | Hlastcall : _ = _ |- _ =>
                rewrite ?app_nil_r in Hfail; cbn [app] in Hfail;
                rewrite Hlastcall in Hfail; cbn in Hfail;
                first [ discriminate Hfail
                      | injection Hfail as <-;
                        auto using Error_FailedAfterRetries ]
            end ] ].

Local Abbreviation wait2 := (TimerFired (wait_before_attempt 2)).
Local Abbreviation wait3 := (TimerFired (wait_before_attempt 3)).

Lemma getSecret_retry_outcome w name h v err h' :
  getSecret w name h = (v, err, h') ->
  retry_outcome w (CallGetSecretValue name)
    (fun h0 => transport_error (GetSecretValue w h0 name)) h v err h'.
Proof.
  rewrite getSecret_unrolled. cbv zeta.
  destruct (GetSecretValue w h name) as [e1|r1] eqn:H1.
  2: { intros [= _ <-]. course_ends (@nil event) (CallGetSecretValue name). }
  destruct (ctx_Done w (h ++ [CallGetSecretValue name]) _) as [c1|] eqn:Hc1.
  { intros [= <- <- <-].
    course_ends [CallGetSecretValue name] (ContextDone (wait_before_attempt 2)). }
  destruct (GetSecretValue w (h ++ [CallGetSecretValue name; wait2]) name)
    as [e2|r2] eqn:H2.
  2: { intros [= _ <-]. course_ends [CallGetSecretValue name; wait2] (CallGetSecretValue name). }
  destruct (ctx_Done w (h ++ [CallGetSecretValue name; wait2; CallGetSecretValue name]) _)
    as [c2|] eqn:Hc2.
  { intros [= <- <- <-].
    course_ends [CallGetSecretValue name; wait2; CallGetSecretValue name]
      (ContextDone (wait_before_attempt 3)). }
  destruct (GetSecretValue w (h ++ [CallGetSecretValue name; wait2; CallGetSecretValue name; wait3]) name)
    as [e3|r3] eqn:H3.
  2: { intros [= _ <-].
       course_ends [CallGetSecretValue name; wait2; CallGetSecretValue name; wait3] (CallGetSecretValue name). }
  intros [= <- <- <-].
  course_ends [CallGetSecretValue name; wait2; CallGetSecretValue name; wait3] (CallGetSecretValue name).
Qed.

Lemma getParameter_retry_outcome w name h v err h' :
  getParameter w name h = (v, err, h') ->
  retry_outcome w (CallGetParameter name true)
    (fun h0 => transport_error (GetParameter w h0 name true)) h v err h'.
Proof.
  rewrite getParameter_unrolled. cbv zeta.
  destruct (GetParameter w h name true) as [e1|r1] eqn:H1.
  2: { intros [= _ <-]. course_ends (@nil event) (CallGetParameter name true). }
  destruct (ctx_Done w (h ++ [CallGetParameter name true]) _) as [c1|] eqn:Hc1.
  { intros [= <- <- <-].
    course_ends [CallGetParameter name true] (ContextDone (wait_before_attempt 2)). }
  destruct (GetParameter w (h ++ [CallGetParameter name true; wait2]) name true)
    as [e2|r2] eqn:H2.
  2: { intros [= _ <-]. course_ends [CallGetParameter name true; wait2] (CallGetParameter name true). }
  destruct (ctx_Done w (h ++ [CallGetParameter name true; wait2; CallGetParameter name true]) _)
    as [c2|] eqn:Hc2.
  { intros [= <- <- <-].
    course_ends [CallGetParameter name true; wait2; CallGetParameter name true]
      (ContextDone (wait_before_attempt 3)). }
  destruct (GetParameter w (h ++ [CallGetParameter name true; wait2; CallGetParameter name true; wait3]) name true)
    as [e3|r3] eqn:H3.
  2: { intros [= _ <-].
       course_ends [CallGetParameter name true; wait2; CallGetParameter name true; wait3] (CallGetParameter name true). }
  intros [= <- <- <-].
  course_ends [CallGetParameter name true; wait2; CallGetParameter name true; wait3] (CallGetParameter name true).
Qed.

(** C8.  Both fetch loops make at most three attempts, the first without
    delay and attempt [i >= 2] after a wait of [100ms * (i-1)]; a wait is
    outlasted only when the context is not done before the timer, and when
    the context is done during a wait the loop returns the error of the
    context at once, making no further attempt; when the third attempt
    fails as the two before, the error returned wraps that last failure
    with the number of attempts, ["failed after 3 retries: ..."]. *)
Theorem fetch_loops_follow_retry_policy (w : world) (name : string)
    (h : history) :
  (forall v err h',
     getSecret w name h = (v, err, h') ->
     retry_outcome w (CallGetSecretValue name)
       (fun h0 => transport_error (GetSecretValue w h0 name)) h v err h')
  /\ (forall v err h',
        getParameter w name h = (v, err, h') ->
        retry_outcome w (CallGetParameter name true)
          (fun h0 => transport_error (GetParameter w h0 name true))
          h v err h')
  /\ wait_before_attempt 2 = 100 * Millisecond
  /\ wait_before_attempt 3 = 200 * Millisecond.
Proof.
  split; [|split; [|split; reflexivity]].
  - intros v err h'. apply getSecret_retry_outcome.
  - intros v err h'. apply getParameter_retry_outcome.
Qed.

Lemma fetch_loops_follow_retry_policy_witness :
  retry_outcome world_unreachable (CallGetSecretValue "db")
    (fun h0 => transport_error (GetSecretValue world_unreachable h0 "db"))
    [] "" (Some (FailedAfterRetries 3 (Some (External "timeout 3"))))
    [CallGetSecretValue "db"; TimerFired 100000000;
     CallGetSecretValue "db"; TimerFired 200000000; CallGetSecretValue "db"]
  /\ retry_outcome world_cancelled (CallGetParameter "/p" true)
       (fun h0 => transport_error (GetParameter world_cancelled h0 "/p" true))
       [] "" (Some (External "context canceled"))
       [CallGetParameter "/p" true; ContextDone 100000000].
Proof.
  split.
  - apply (fetch_loops_follow_retry_policy world_unreachable "db" []).
    vm_compute. reflexivity.
  - apply (fetch_loops_follow_retry_policy world_cancelled "/p" []).
    vm_compute. reflexivity.
Defined.

(** C4 (amended).  In either loop, at any iteration, an answer that comes
    back without transport error but without a usable value (a nil
    SecretString; a nil Parameter or a nil Parameter.Value) ends the loop at
    once, with ["binary secrets not supported"] or ["parameter has no
    value"]: nothing is waited for and no further attempt is made, however
    many iterations are left. *)
Theorem empty_answer_ends_the_loop (w : world) (name : string) (n : nat)
    (i : Z) (lastErr : option error) (h : history) :
  let h1 := if 0 <? i then h ++ [TimerFired (retryDelay * i)] else h in
  (0 < i -> ctx_Done w h (retryDelay * i) = None) ->
  (GetSecretValue w h1 name = inr {| SecretString := None |} ->
   getSecret_loop w name (S n) i lastErr h
   = (EmptyString, Some BinarySecret, h1 ++ [CallGetSecretValue name]))
  /\ (forall resp,
        GetParameter w h1 name true = inr resp ->
        Param resp = None \/ Param resp = Some {| Value := None |} ->
        getParameter_loop w name (S n) i lastErr h
        = (EmptyString, Some ParameterNoValue,
           h1 ++ [CallGetParameter name true])).
Proof.
  intros h1 Hwait. subst h1. split.
  - intros Hanswer. cbn [getSecret_loop].
    unfold bind, ret, select_Done_or_After, call_GetSecretValue.
    destruct (Z.ltb_spec 0 i) as [Hi|Hi].
    + rewrite (Hwait Hi), Hanswer. reflexivity.
    + rewrite Hanswer. reflexivity.
  - intros resp Hanswer Hempty. cbn [getParameter_loop].
    unfold bind, ret, select_Done_or_After, call_GetParameter.
    destruct (Z.ltb_spec 0 i) as [Hi|Hi].
    + rewrite (Hwait Hi), Hanswer.
      destruct Hempty as [->| ->]; reflexivity.
    + rewrite Hanswer. destruct Hempty as [->| ->]; reflexivity.
Qed.

Lemma empty_answer_ends_the_loop_witness :
  getSecret_loop world_empty_then_value "s" 3 0 None []
  = (EmptyString, Some BinarySecret, [] ++ [CallGetSecretValue "s"])
  /\ getParameter_loop world_empty_then_value "/p" 3 0 None []
     = (EmptyString, Some ParameterNoValue, [] ++ [CallGetParameter "/p" true]).
Proof.
  destruct (empty_answer_ends_the_loop world_empty_then_value "s" 2 0 None [])
    as [Hsecret _]; [lia|].
  destruct (empty_answer_ends_the_loop world_empty_then_value "/p" 2 0 None [])
    as [_ Hparam]; [lia|].
  split.
  - apply Hsecret. reflexivity.
  - apply (Hparam {| Param := Some {| Value := None |} |}).
    + reflexivity.
    + right. reflexivity.
Defined.

(** C4 as claimed fails: the first answer carries no value, a second attempt
    would have brought one, and both loops return after the first. *)
Lemma empty_answer_is_not_retried :
  getSecret world_empty_then_value "s" []
  = (EmptyString, Some BinarySecret, [CallGetSecretValue "s"])
  /\ getParameter world_empty_then_value "/p" []
     = (EmptyString, Some ParameterNoValue, [CallGetParameter "/p" true])
  /\ GetSecretValue world_empty_then_value
       [CallGetSecretValue "s"; TimerFired (wait_before_attempt 2)] "s"
     = inr {| SecretString := Some "later" |}
  /\ ~ retried_after_empty_answer world_empty_then_value "s" [].
Proof.
  split; [reflexivity|]. split; [reflexivity|]. split; [reflexivity|].
  unfold retried_after_empty_answer. intros Hclaim.
  specialize (Hclaim eq_refl). vm_compute in Hclaim. lia.
Qed.

(** ** Value extraction *)

Lemma HasPrefix_cons c s a p :
  strings.HasPrefix (String c s) (String a p)
  = Ascii.eqb c a && strings.HasPrefix s p.
Proof. reflexivity. Qed.

Lemma Contains_hash_cons c s :
  strings.Contains (String c s) "#" = false ->
  Ascii.eqb c "#" = false /\ strings.Contains s "#" = false.
Proof.
  unfold strings.Contains. rewrite Index_cons, HasPrefix_cons.
  change (strings.HasPrefix s "") with true. rewrite andb_true_r.
  destruct (Ascii.eqb c "#"); [discriminate|].
  destruct (Z.ltb_spec (strings.Index s "#") 0) as [Hi|Hi]; intros H.
  - split; [reflexivity|]. apply Z.leb_gt, Hi.
  - apply Z.leb_gt in H. lia.
Qed.

Lemma split_first_hash_none s :
  strings.Contains s "#" = false -> split_first_hash s = (s, None).
Proof.
  induction s as [|c s IH]; [reflexivity|]. intros H.
  apply Contains_hash_cons in H as [Hc Hs].
  simpl. rewrite Hc, (IH Hs). reflexivity.
Qed.

Lemma split_first_hash_append name key :
  strings.Contains name "#" = false ->
  split_first_hash (name +:+ "#" +:+ key) = (name, Some key).
Proof.
  induction name as [|c name IH]; [reflexivity|]. intros H.
  apply Contains_hash_cons in H as [Hc Hs].
  rewrite append_cons. simpl. rewrite Hc, (IH Hs). reflexivity.
Qed.

(** Appending ["#..."] to a name cannot complete a prefix without ["#"]. *)
Lemma HasPrefix_append_hash p : forall name key,
  strings.Contains p "#" = false ->
  strings.HasPrefix name p = false ->
  strings.HasPrefix (name +:+ "#" +:+ key) p = false.
Proof.
  induction p as [|a p IH]; intros name key Hp Hname; [discriminate|].
  apply Contains_hash_cons in Hp as [Ha Hp].
  destruct name as [|c name].
  - rewrite append_empty_l, append_cons, HasPrefix_cons.
    rewrite Ascii.eqb_sym, Ha. reflexivity.
  - rewrite append_cons, HasPrefix_cons. rewrite HasPrefix_cons in Hname.
    destruct (Ascii.eqb c a); [|reflexivity].
    simpl in Hname |- *. apply IH; assumption.
Qed.

Lemma classify_simple name :
  name <> EmptyString ->
  strings.Contains name "#" = false ->
  strings.HasPrefix name ssmReferencePath = false ->
  classify name = inr (SecretStoreSimple name).
Proof.
  intros Hne Hhash Hssm. unfold classify.
  destruct name as [|c name]; [congruence|].
  rewrite Hssm, (split_first_hash_none _ Hhash). reflexivity.
Qed.

Lemma classify_with_key name key :
  name <> EmptyString ->
  strings.Contains name "#" = false ->
  strings.HasPrefix name ssmReferencePath = false ->
  classify (name +:+ "#" +:+ key) = inr (SecretStoreWithKey name key).
Proof.
  intros Hne Hhash Hssm. unfold classify.
  rewrite (HasPrefix_append_hash ssmReferencePath name key eq_refl Hssm).
  rewrite (split_first_hash_append name key Hhash).
  destruct name as [|c name]; [congruence|]. reflexivity.
Qed.

(** A fetch loop does not decode anything. *)
Lemma getSecret_no_Unmarshal w name h v err h' :
  getSecret w name h = (v, err, h') ->
  exists course,
    h' = h ++ course
    /\ Forall (fun ev => forall data, ev <> CallUnmarshal data) course.
Proof.
  intros Hrun. apply getSecret_retry_outcome in Hrun.
  destruct Hrun as (course & -> & Hin & _). exists course.
  split; [reflexivity|].
  unfold retry_courses in Hin.
  repeat (apply elem_of_cons in Hin as [->|Hin];
          [repeat constructor; discriminate|]).
  apply elem_of_nil in Hin. contradiction.
Qed.

(** C7.  For a Secrets Manager reference (a non-empty name without ["#"]
    that is not a Parameter Store path) whose secret is fetched as [raw]:
    without key, [resolveSecret] returns [raw] itself and nothing is
    decoded (the history is the one the fetch left, and the fetch calls no
    decoder); with a key, [raw] is decoded once as a map from strings to
    strings, a decoding failure gives the NotJSON error naming the secret,
    an absent key gives the KeyNotFound error naming the key and the
    secret, and a present key gives the value it maps to. *)
Theorem resolveSecret_value_extraction (w : world) (name raw : string)
    (h h1 : history) :
  name <> EmptyString ->
  strings.Contains name "#" = false ->
  strings.HasPrefix name ssmReferencePath = false ->
  getSecret w name h = (raw, None, h1) ->
  (resolveSecret w (secretPrefix +:+ name) h = (raw, None, h1)
   /\ exists course,
        h1 = h ++ course
        /\ Forall (fun ev => forall data, ev <> CallUnmarshal data) course)
  /\ (forall key,
        resolveSecret w (secretPrefix +:+ name +:+ "#" +:+ key) h
        = match Unmarshal w raw with
          | inl cause =>
              (EmptyString, Some (NotJSON name cause),
               h1 ++ [CallUnmarshal raw])
          | inr parsed =>
              match parsed !! key with
              | None =>
                  (EmptyString, Some (KeyNotFound key name),
                   h1 ++ [CallUnmarshal raw])
              | Some value => (value, None, h1 ++ [CallUnmarshal raw])
              end
          end)
  /\ (forall cause,
        Error (NotJSON name cause)
        = "secret " +:+ name +:+ " is not valid JSON: " +:+ Error cause)
  /\ (forall key,
        Error (KeyNotFound key name)
        = "key " +:+ key +:+ " not found in secret " +:+ name).
Proof.
  intros Hne Hhash Hssm Hfetch.
  split; [split|split; [|split; reflexivity]].
  - rewrite resolveSecret_classify, (classify_simple name Hne Hhash Hssm).
    unfold resolve_reference. rewrite Hfetch. reflexivity.
  - eapply getSecret_no_Unmarshal, Hfetch.
  - intros key.
    rewrite resolveSecret_classify, (classify_with_key name key Hne Hhash Hssm).
    unfold resolve_reference, extract_key. rewrite Hfetch. reflexivity.
Qed.

Lemma resolveSecret_value_extraction_witness :
  resolveSecret (world_serving test_payload) "aws-secret:myapp/prod" []
  = (test_payload, None, [CallGetSecretValue "myapp/prod"])
  /\ resolveSecret (world_serving test_payload)
       "aws-secret:myapp/prod#database_url" []
     = ("postgres://localhost", None,
        [CallGetSecretValue "myapp/prod"; CallUnmarshal test_payload])
  /\ resolveSecret (world_serving test_payload)
       "aws-secret:myapp/prod#password" []
     = (EmptyString, Some (KeyNotFound "password" "myapp/prod"),
        [CallGetSecretValue "myapp/prod"; CallUnmarshal test_payload])
  /\ resolveSecret (world_serving "{invalid json}")
       "aws-secret:myapp/prod#database_url" []
     = (EmptyString, Some (NotJSON "myapp/prod" json.SyntaxError),
        [CallGetSecretValue "myapp/prod"; CallUnmarshal "{invalid json}"]).
Proof.
  destruct (resolveSecret_value_extraction (world_serving test_payload)
              "myapp/prod" test_payload [] [CallGetSecretValue "myapp/prod"])
    as ([Hraw _] & Hkey & _);
    [discriminate|reflexivity|reflexivity|reflexivity|].
  destruct (resolveSecret_value_extraction (world_serving "{invalid json}")
              "myapp/prod" "{invalid json}" []
              [CallGetSecretValue "myapp/prod"])
    as (_ & Hbad & _);
    [discriminate|reflexivity|reflexivity|reflexivity|].
  split; [exact Hraw|]. split; [|split].
  - refine (eq_trans (Hkey "database_url") _). vm_compute. reflexivity.
  - refine (eq_trans (Hkey "password") _). vm_compute. reflexivity.
  - refine (eq_trans (Hbad "database_url") _). vm_compute. reflexivity.
Defined.

(** ** The executor *)

Lemma land_127 a : 0 <= a -> Z.land a 0x7F = a mod 128.
Proof. intros _. apply (Z.land_ones a 7). lia. Qed.

Lemma land_255 a : 0 <= a -> Z.land a 0xFF = a mod 256.
Proof. intros _. apply (Z.land_ones a 8). lia. Qed.

Lemma ExitStatus_exited code :
  0 <= code <= 255 ->
  WaitStatus.ExitStatus (status_word (ExitedWith code)) = code.
Proof.
  intros Hcode. unfold WaitStatus.ExitStatus, WaitStatus.Exited, status_word.
  unfold WaitStatus.mask, WaitStatus.exited, WaitStatus.shift.
  rewrite (land_255 code) by lia. rewrite Z.mod_small by lia.
  rewrite Z.shiftl_mul_pow2 by lia.
  rewrite land_127 by lia.
  replace ((code * 2 ^ 8) mod 128) with 0
    by (change (2 ^ 8) with (2 * 128); rewrite Z.mul_assoc, Z_mod_mult; lia).
  simpl negb. cbv iota.
  rewrite Z.shiftr_div_pow2 by lia. rewrite Z_div_mult by lia.
  rewrite land_255 by lia. apply Z.mod_small. lia.
Qed.

Lemma ExitStatus_signaled sig coredump :
  1 <= sig <= 126 ->
  WaitStatus.ExitStatus (status_word (KilledBy sig coredump)) = -1.
Proof.
  intros Hsig. unfold WaitStatus.ExitStatus, WaitStatus.Exited, status_word.
  unfold WaitStatus.mask, WaitStatus.exited, WaitStatus.core.
  rewrite Z.land_lor_distr_l.
  rewrite <- Z.land_assoc, Z.land_diag.
  replace (Z.land (if coredump then 128 else 0) 127) with 0
    by (destruct coredump; reflexivity).
  rewrite Z.lor_0_r, land_127 by lia. rewrite Z.mod_small by lia.
  destruct (Z.eqb_spec sig 0); [lia|reflexivity].
Qed.

(** C3.  What [execute] returns: the exit code of a child that exits (0
    to 255, so 42 gives 42 and 0 gives 0); 1, with nothing waited for and no
    handler started, when the command cannot be started; 1 when the wait
    fails otherwise.  For a child ended by a signal [cmd.Wait()] returns an
    [*exec.ExitError] whose status is not an exit, [ExitStatus()] is -1 for
    it, and that is what [execute] returns, not 1. *)
Theorem execute_exit_codes (command : string) (args : list string)
    (env : slice) (pid : Z) :
  (forall code,
     0 <= code <= 255 ->
     fst (execute (child_ending pid (ExitedWith code)) command args env) = code)
  /\ (forall p err,
        cmd_Start p command args env = StartError err ->
        execute p command args env
        = (1, [CmdStart command args env true; LogFailedToStart command err]))
  /\ (forall p sys,
        cmd_Start p command args env = Started pid ->
        cmd_Wait p = Some sys ->
        (forall status, sys <> ExitError (Sys_WaitStatus status)) ->
        fst (execute p command args env) = 1)
  /\ (forall sig coredump,
        1 <= sig <= 126 ->
        fst (execute (child_ending pid (KilledBy sig coredump))
               command args env) = -1).
Proof.
  split; [|split; [|split]].
  - intros code Hcode. unfold execute, child_ending, Wait_of.
    cbn [cmd_Start cmd_Wait]. cbv zeta.
    rewrite (ExitStatus_exited code Hcode).
    destruct (Z.eqb_spec code 0) as [->|Hne]; [reflexivity|].
    cbn [fst]. apply ExitStatus_exited, Hcode.
  - intros p err Hstart. unfold execute. rewrite Hstart. reflexivity.
  - intros p sys Hstart Hwait Hother. unfold execute.
    rewrite Hstart, Hwait.
    destruct sys as [[status|]|err]; try reflexivity.
    contradiction (Hother status). reflexivity.
  - intros sig coredump Hsig. unfold execute, child_ending, Wait_of.
    cbn [cmd_Start cmd_Wait]. cbv zeta.
    rewrite (ExitStatus_signaled sig coredump Hsig).
    change (-1 =? 0) with false. cbv iota. cbn [fst].
    apply ExitStatus_signaled, Hsig.
Qed.

Lemma execute_exit_codes_witness :
  fst (execute (child_ending 7 (ExitedWith 42)) "sh" ["-c"; "exit 42"]
         (Some ["PATH=/usr/bin:/bin"])) = 42
  /\ fst (execute (child_ending 7 (ExitedWith 0)) "true" []
            (Some ["PATH=/usr/bin:/bin"])) = 0
  /\ execute no_such_command "nonexistent" [] (Some ["PATH=/usr/bin:/bin"])
     = (1, [CmdStart "nonexistent" [] (Some ["PATH=/usr/bin:/bin"]) true;
            LogFailedToStart "nonexistent"
              (External "executable file not found in $PATH")])
  /\ fst (execute (child_ending 7 (KilledBy SIGKILL false)) "sleep" ["60"]
            (Some ["PATH=/usr/bin:/bin"]))
     = -1.
Proof.
  split; [|split; [|split]].
  - apply (execute_exit_codes "sh" ["-c"; "exit 42"]
             (Some ["PATH=/usr/bin:/bin"]) 7). lia.
  - apply (execute_exit_codes "true" [] (Some ["PATH=/usr/bin:/bin"]) 7). lia.
  - apply (execute_exit_codes "nonexistent" [] (Some ["PATH=/usr/bin:/bin"]) 7).
    reflexivity.
  - apply (execute_exit_codes "sleep" ["60"] (Some ["PATH=/usr/bin:/bin"]) 7).
    unfold SIGKILL. lia.
Defined.

(** ** Signals and the shutdown timer *)

Section Supervisor.

Variable pid : Z.

Lemma reaching_ext s s' calls :
  child_running s' = child_running s ->
  group_running s' = group_running s ->
  reaching pid s' calls = reaching pid s calls.
Proof. unfold reaching, finds. intros -> ->. reflexivity. Qed.

Lemma reaching_app s calls1 calls2 :
  reaching pid s (calls1 ++ calls2)
  = reaching pid s calls1 ++ reaching pid s calls2.
Proof. apply List.filter_app. Qed.

Lemma reaching_elem_of s calls call :
  call ∈ reaching pid s calls <->
  call ∈ calls /\ finds pid (target_of call) s = true.
Proof.
  unfold reaching. rewrite !list_elem_of_In. apply List.filter_In.
Qed.




(** What the two calls of [forwardSignal] do, whatever the state. *)
Lemma forwardSignal_spec n s :
  now (forwardSignal pid (syscall_Signal n) s) = now s
  /\ child_running (forwardSignal pid (syscall_Signal n) s) = child_running s
  /\ group_running (forwardSignal pid (syscall_Signal n) s) = group_running s
  /\ timers (forwardSignal pid (syscall_Signal n) s) = timers s
  /\ sent (forwardSignal pid (syscall_Signal n) s)
     = sent s ++ forwarded pid (now s) n
  /\ delivered (forwardSignal pid (syscall_Signal n) s)
     = delivered s ++ reaching pid s (forwarded pid (now s) n).
Proof.
  unfold forwardSignal, syscall_Kill, add_log, reaching, forwarded, target_of,
    finds.
  cbn [now child_running group_running sent delivered timers log fst snd
       List.filter].
  destruct (- pid =? pid), (pid =? pid), (pid =? - pid), (- pid =? - pid),
    (child_running s), (group_running s);
    cbn [now child_running group_running sent delivered timers log fst snd
         List.filter app];
    rewrite <- ?app_assoc, ?app_nil_r; auto 10.
Qed.

(** What a goroutine does when it wakes, whatever the state. *)
Lemma shutdown_timer_body_spec deadline s :
  now (shutdown_timer_body pid deadline s) = now s
  /\ child_running (shutdown_timer_body pid deadline s) = child_running s
  /\ group_running (shutdown_timer_body pid deadline s) = group_running s
  /\ timers (shutdown_timer_body pid deadline s) = timers s
  /\ sent (shutdown_timer_body pid deadline s)
     = sent s ++ forced_kills pid deadline
  /\ delivered (shutdown_timer_body pid deadline s)
     = delivered s ++ reaching pid s (forced_kills pid deadline).
Proof.
  unfold shutdown_timer_body, syscall_Kill, add_log, reaching, forced_kills,
    target_of, finds.
  cbn [now child_running group_running sent delivered timers log fst snd
       List.filter].
  destruct (- pid =? pid), (pid =? pid), (pid =? - pid), (- pid =? - pid),
    (child_running s), (group_running s);
    cbn [now child_running group_running sent delivered timers log fst snd
         List.filter app];
    rewrite <- ?app_assoc, ?app_nil_r; auto 10.
Qed.

Lemma is_syscall_eq sig n :
  is_syscall sig n = true -> sig = syscall_Signal n.
Proof.
  destruct sig as [m|name]; cbn; [|discriminate].
  intros H. apply Z.eqb_eq in H. congruence.
Qed.

(** One signal read by the handler. *)
Lemma handleSignal_spec sig s :
  now (handleSignal pid sig s) = now s
  /\ child_running (handleSignal pid sig s) = child_running s
  /\ group_running (handleSignal pid sig s) = group_running s
  /\ timers (handleSignal pid sig s)
     = timers s ++ (if is_syscall sig SIGTERM
                    then [now s + gracefulTimeout] else [])
  /\ sent (handleSignal pid sig s) = sent s ++ sends pid sig s
  /\ delivered (handleSignal pid sig s)
     = delivered s ++ reaching pid s (sends pid sig s).
Proof.
  assert (Hfwd : forall n,
            sig = syscall_Signal n ->
            let s' := forwardSignal pid sig (add_log (LogForwarding sig pid) s) in
            now s' = now s
            /\ child_running s' = child_running s
            /\ group_running s' = group_running s
            /\ timers s' = timers s
            /\ sent s' = sent s ++ forwarded pid (now s) n
            /\ delivered s'
               = delivered s ++ reaching pid s (forwarded pid (now s) n)).
  { intros n ->.
    destruct (forwardSignal_spec n
                (add_log (LogForwarding (syscall_Signal n) pid) s))
      as (H1 & H2 & H3 & H4 & H5 & H6).
    cbv zeta. rewrite H1, H2, H3, H4, H5, H6. auto 10. }
  unfold handleSignal, sends, is_handled.
  destruct sig as [n|name];
    [|cbn; rewrite !app_nil_r; auto 10].
  specialize (Hfwd n eq_refl). cbv zeta in Hfwd.
  destruct Hfwd as (H1 & H2 & H3 & H4 & H5 & H6).
  destruct (is_syscall (syscall_Signal n) SIGTERM) eqn:Hterm; cbn [orb].
  { unfold go_shutdown_timer.
    cbn [now child_running group_running sent delivered timers log].
    rewrite H1, H2, H3, H4, H5, H6. auto 10. }
  rewrite app_nil_r.
  destruct (is_syscall (syscall_Signal n) SIGINT); cbn [orb]; [auto 10|].
  destruct (is_syscall (syscall_Signal n) SIGQUIT); cbn [orb]; [auto 10|].
  destruct (is_syscall (syscall_Signal n) SIGUSR1); cbn [orb]; [auto 10|].
  destruct (is_syscall (syscall_Signal n) SIGUSR2); cbn [orb]; [auto 10|].
  cbn. rewrite !app_nil_r. auto 10.
Qed.

(** The goroutines that come due, one after the other. *)
Lemma fold_timers_spec due : forall s,
  let s' := fold_left (fun s deadline => shutdown_timer_body pid deadline s)
              due s in
  now s' = now s
  /\ child_running s' = child_running s
  /\ group_running s' = group_running s
  /\ timers s' = timers s
  /\ sent s' = sent s ++ flat_map (forced_kills pid) due
  /\ delivered s'
     = delivered s ++ reaching pid s (flat_map (forced_kills pid) due).
Proof.
  induction due as [|dl due IH]; intros s; cbn [fold_left flat_map].
  - cbn. rewrite !app_nil_r. auto 10.
  - destruct (shutdown_timer_body_spec dl s) as (H1 & H2 & H3 & H4 & H5 & H6).
    destruct (IH (shutdown_timer_body pid dl s))
      as (G1 & G2 & G3 & G4 & G5 & G6).
    cbv zeta in *.
    rewrite G1, G2, G3, G4, G5, G6, H1, H2, H3, H4, H5, H6.
    rewrite (reaching_ext s (shutdown_timer_body pid dl s)) by assumption.
    rewrite reaching_app, <- !app_assoc. auto 10.
Qed.

(** Time passing. *)
Lemma elapse_spec d s :
  now (elapse pid d s) = now s + d
  /\ child_running (elapse pid d s) = child_running s
  /\ group_running (elapse pid d s) = group_running s
  /\ timers (elapse pid d s)
     = filter (fun deadline => ¬ deadline <= now s + d) (timers s)
  /\ sent (elapse pid d s)
     = sent s
       ++ flat_map (forced_kills pid)
            (filter (fun deadline => deadline <= now s + d) (timers s))
  /\ delivered (elapse pid d s)
     = delivered s
       ++ reaching pid s
            (flat_map (forced_kills pid)
               (filter (fun deadline => deadline <= now s + d) (timers s))).
Proof.
  unfold elapse.
  match goal with
  | |- context [fold_left ?f ?due ?s0] =>
      destruct (fold_timers_spec due s0) as (H1 & H2 & H3 & H4 & H5 & H6)
  end.
  cbv zeta in *.
  cbn [now child_running group_running sent delivered timers log] in *.
  rewrite H2, H3, H4, H5, H6. auto 10.
Qed.



Hypothesis pid_positive : 0 < pid.

Lemma finds_child s : finds pid pid s = child_running s.
Proof. unfold finds. rewrite Z.eqb_refl. reflexivity. Qed.

Lemma finds_group s : finds pid (- pid) s = group_running s.
Proof.
  unfold finds.
  destruct (Z.eqb_spec (- pid) pid) as [Heq|_]; [lia|].
  rewrite Z.eqb_refl. reflexivity.
Qed.

Lemma reaching_forwarded s t n :
  reaching pid s (forwarded pid t n)
  = (if group_running s then [(t, - pid, n)] else [])
    ++ (if child_running s then [(t, pid, n)] else []).
Proof.
  unfold reaching, forwarded, target_of. cbn [List.filter fst snd].
  rewrite finds_child, finds_group.
  destruct (group_running s), (child_running s); reflexivity.
Qed.

Lemma reaching_forced_kills s deadline :
  reaching pid s (forced_kills pid deadline)
  = (if child_running s then [(deadline, pid, SIGKILL)] else [])
    ++ (if group_running s then [(deadline, - pid, SIGKILL)] else []).
Proof.
  unfold reaching, forced_kills, target_of. cbn [List.filter fst snd].
  rewrite finds_child, finds_group.
  destruct (group_running s), (child_running s); reflexivity.
Qed.




End Supervisor.








(** * Further properties *)

(** ** Cutting at a one-character separator *)

Lemma Index_char_cons a s c :
  strings.Index (String a s) (String c EmptyString)
  = if Ascii.eqb a c then 0
    else if strings.Index s (String c EmptyString) <? 0 then -1
         else strings.Index s (String c EmptyString) + 1.
Proof.
  rewrite Index_cons, HasPrefix_cons.
  change (strings.HasPrefix s "") with true. rewrite andb_true_r.
  reflexivity.
Qed.

(** What [Cut] returns around a one-character separator: the part before
    it is free of the separator. *)
Lemma Cut_char_spec c s :
  match strings.Cut s (String c EmptyString) with
  | (before, after, true) =>
      s = before +:+ String c after
      /\ strings.Contains before (String c EmptyString) = false
  | (before, after, false) =>
      before = s /\ after = EmptyString
      /\ strings.Contains s (String c EmptyString) = false
  end.
Proof.
  unfold strings.Cut, strings.Contains.
  induction s as [|a s IH]; [repeat split|].
  rewrite Index_char_cons.
  destruct (Ascii.eqb_spec a c) as [->|Hne]; [repeat split|].
  destruct (Z.ltb_spec (strings.Index s (String c EmptyString)) 0) as [Hi|Hi].
  - repeat split.
  - destruct (Z.leb_spec 0 (strings.Index s (String c EmptyString)));
      [|lia].
    destruct (Z.leb_spec 0 (strings.Index s (String c EmptyString) + 1));
      [|lia].
    replace (Z.to_nat (strings.Index s (String c EmptyString) + 1))
      with (S (Z.to_nat (strings.Index s (String c EmptyString)))) by lia.
    destruct IH as [Hs Hb]. simpl. split.
    + rewrite append_cons. f_equal. exact Hs.
    + rewrite Index_char_cons.
      destruct (Ascii.eqb_spec a c) as [|_]; [contradiction|].
      apply Z.leb_gt in Hb.
      destruct (Z.ltb_spec
                  (strings.Index
                     (strings.take_bytes
                        (Z.to_nat (strings.Index s (String c EmptyString))) s)
                     (String c EmptyString)) 0); [reflexivity|lia].
Qed.

Lemma Contains_char_cons a s c :
  strings.Contains (String a s) (String c EmptyString) = false ->
  Ascii.eqb a c = false
  /\ strings.Contains s (String c EmptyString) = false.
Proof.
  unfold strings.Contains. rewrite Index_char_cons.
  destruct (Ascii.eqb a c); [discriminate|].
  destruct (Z.ltb_spec (strings.Index s (String c EmptyString)) 0) as [Hi|Hi];
    intros H.
  - split; [reflexivity|]. apply Z.leb_gt, Hi.
  - apply Z.leb_gt in H. lia.
Qed.

(** A key without the separator is cut off again as it was put. *)
Lemma Cut_char_rebuild c before after :
  strings.Contains before (String c EmptyString) = false ->
  strings.Cut (before +:+ String c after) (String c EmptyString)
  = (before, after, true).
Proof.
  unfold strings.Cut. induction before as [|a before IH]; intros Hb.
  - rewrite append_empty_l, Index_char_cons, Ascii.eqb_refl. reflexivity.
  - apply Contains_char_cons in Hb as [Ha Hb]. specialize (IH Hb).
    rewrite append_cons, Index_char_cons, Ha.
    destruct (Z.leb_spec
                0 (strings.Index (before +:+ String c after)
                     (String c EmptyString))) as [Hi|Hi]; [|discriminate IH].
    destruct (Z.ltb_spec
                (strings.Index (before +:+ String c after)
                   (String c EmptyString)) 0); [lia|].
    destruct (Z.leb_spec
                0 (strings.Index (before +:+ String c after)
                     (String c EmptyString) + 1)); [|lia].
    replace (Z.to_nat (strings.Index (before +:+ String c after)
                         (String c EmptyString) + 1))
      with (S (Z.to_nat (strings.Index (before +:+ String c after)
                           (String c EmptyString)))) by lia.
    injection IH as Ht Hd. simpl. rewrite Ht, Hd. reflexivity.
Qed.

Lemma Cut_key_free e name value :
  strings.Cut e "=" = (name, value, true) ->
  e = name +:+ "=" +:+ value /\ strings.Contains name "=" = false.
Proof.
  intros Hcut. pose proof (Cut_char_spec "=" e) as H.
  rewrite Hcut in H. exact H.
Qed.

(** ** The pipeline, entry by entry *)

Lemma resolveSecrets_loop_append w env1 env2 : forall acc h,
  resolveSecrets_loop w (env1 ++ env2) acc h
  = match resolveSecrets_loop w env1 acc h with
    | (out1, None, h1) => resolveSecrets_loop w env2 out1 h1
    | (out1, Some err, h1) => (out1, Some err, h1)
    end.
Proof.
  induction env1 as [|e env1 IH]; intros acc h; [reflexivity|].
  cbn [app resolveSecrets_loop].
  destruct (strings.Cut e "=") as [[name value] found].
  destruct found; cbn [negb]; [|apply IH].
  destruct (strings.HasPrefix value secretPrefix); [|apply IH].
  unfold bind. destruct (resolveSecret w value h) as [[resolved rerr] h1].
  destruct rerr; [reflexivity|apply IH].
Qed.

(** X1.  The loop of [resolveSecrets] over [env1 ++ env2] is the loop over
    [env1] followed, when it did not fail, by the loop over [env2] from
    the slice and the history it left; when it failed, [env2] is not
    looked at.  In particular the entries are resolved one after the
    other, each from the history the one before left. *)
Theorem resolveSecrets_loop_app (w : world) (env1 env2 acc : list string)
    (h : history) :
  resolveSecrets_loop w (env1 ++ env2) acc h
  = match resolveSecrets_loop w env1 acc h with
    | (out1, None, h1) => resolveSecrets_loop w env2 out1 h1
    | (out1, Some err, h1) => (out1, Some err, h1)
    end
  /\ (forall out1 h1 out err h',
        resolveSecrets_loop w env1 acc h = (out1, None, h1) ->
        resolveSecrets_loop w env2 out1 h1 = (out, err, h') ->
        resolveSecrets_loop w (env1 ++ env2) acc h = (out, err, h')).
Proof.
  split; [apply resolveSecrets_loop_append|].
  intros out1 h1 out err h' H1 H2.
  rewrite resolveSecrets_loop_append, H1. exact H2.
Qed.

Lemma resolveSecrets_loop_app_witness :
  resolveSecrets_loop (world_serving "s3cr3t")
    (["A=aws-secret:a"] ++ ["PORT=80"; "B=aws-secret:b"]) [] []
  = (["A=s3cr3t"; "PORT=80"; "B=s3cr3t"], None,
     [CallGetSecretValue "a"; CallGetSecretValue "b"]).
Proof.
  destruct (resolveSecrets_loop_app (world_serving "s3cr3t")
              ["A=aws-secret:a"] ["PORT=80"; "B=aws-secret:b"] [] [])
    as [_ Hcompose].
  apply (Hcompose ["A=s3cr3t"] [CallGetSecretValue "a"]);
    vm_compute; reflexivity.
Defined.

Lemma existsb_app_l {A} (f : A -> bool) l1 l2 :
  existsb f l1 = true -> existsb f (l1 ++ l2) = true.
Proof. intros H. rewrite existsb_app, H. reflexivity. Qed.

Lemma resolveSecrets_error_slow_path w env h out e h' :
  resolveSecrets w env h = (out, Some e, h') ->
  existsb (fun x => strings.Contains x secretPrefix) env = true.
Proof.
  unfold resolveSecrets.
  destruct (existsb _ env); [reflexivity|]. discriminate.
Qed.

(** X2.  A call that fails goes on failing in the same way when entries
    are appended to the environment: same error, same history.  Nothing
    after the entry that failed is resolved or fetched. *)
Theorem resolveSecrets_fails_fast (w : world) (env more : list string)
    (h : history) (out : list string) (e : error) (h' : history) :
  resolveSecrets w env h = (out, Some e, h') ->
  resolveSecrets w (env ++ more) h = (out, Some e, h').
Proof.
  intros Hrun.
  pose proof (resolveSecrets_error_slow_path w env h out e h' Hrun) as Hscan.
  revert Hrun. unfold resolveSecrets.
  rewrite Hscan, (existsb_app_l _ env more Hscan). cbn [negb].
  unfold bind, call_LoadDefaultConfig.
  destruct (LoadDefaultConfig w h); [trivial|].
  intros Hloop. rewrite resolveSecrets_loop_append, Hloop. reflexivity.
Qed.

Lemma resolveSecrets_fails_fast_witness :
  resolveSecrets (world_serving "s3cr3t")
    (["A=aws-secret:a"; "BAD=aws-secret:#k"] ++ ["C=aws-secret:c"]) []
  = ([], Some (FailedToResolve "BAD" EmptyName),
     [CallLoadDefaultConfig; CallGetSecretValue "a"]).
Proof.
  apply (resolveSecrets_fails_fast (world_serving "s3cr3t")
           ["A=aws-secret:a"; "BAD=aws-secret:#k"] ["C=aws-secret:c"]).
  vm_compute. reflexivity.
Defined.

Lemma entry_key_rebuilt name value :
  strings.Contains name "=" = false ->
  entry_key (name +:+ "=" +:+ value) = name
  /\ malformed (name +:+ "=" +:+ value) = false.
Proof.
  intros Hname. unfold entry_key.
  pose proof (Cut_char_rebuild "=" name value Hname) as Hcut.
  change (strings.Cut (name +:+ "=" +:+ value) "=" = (name, value, true))
    in Hcut.
  rewrite Hcut. split; [reflexivity|].
  eapply Cut_found_well_formed, Hcut.
Qed.

Lemma resolved_entries_keys w env h out h' :
  resolved_entries w env h out h' ->
  map entry_key out = map entry_key (well_formed_entries env)
  /\ well_formed_entries out = out.
Proof.
  induction 1 as [h
                 |e env h out h' Hm _ IH
                 |e name value env h out h' Hcut _ _ IH
                 |e name value resolved env h h1 out h' Hcut _ _ _ IH];
    cbn [well_formed_entries map].
  - split; reflexivity.
  - rewrite Hm. exact IH.
  - rewrite (Cut_found_well_formed e name value Hcut).
    destruct IH as [IH1 IH2]. cbn [map]. rewrite IH1, IH2. split; reflexivity.
  - rewrite (Cut_found_well_formed e name value Hcut).
    destruct IH as [IH1 IH2]. cbn [map].
    destruct (Cut_key_free e name value Hcut) as [_ Hname].
    destruct (entry_key_rebuilt name resolved Hname) as [Hkey Hwf].
    rewrite Hwf, Hkey, IH1, IH2. unfold entry_key at 2. rewrite Hcut.
    split; reflexivity.
Qed.

(** X3.  A successful call keeps the keys: the entries with a separator in
    the output carry the keys of the entries with a separator in the
    input, one for one and in the same order.  Resolution changes values
    only; no entry is merged, added or reordered. *)
Theorem resolveSecrets_keeps_keys (w : world) (env : list string)
    (h : history) (out : list string) (h' : history) :
  resolveSecrets w env h = (out, None, h') ->
  map entry_key (well_formed_entries out)
  = map entry_key (well_formed_entries env).
Proof.
  intros Hrun.
  destruct (resolveSecrets_cases w env h out None h' Hrun)
    as [(_ & -> & _)|[(cause & _ & _ & Habs & _)|[_ Hloop]]].
  - reflexivity.
  - discriminate Habs.
  - apply resolveSecrets_loop_spec in Hloop.
    destruct Hloop as (out' & -> & Hres).
    destruct (resolved_entries_keys w env _ out' h' Hres) as [Hkeys Hwf].
    cbn [app]. rewrite Hwf. exact Hkeys.
Qed.

Lemma resolveSecrets_keeps_keys_witness :
  map entry_key
    (well_formed_entries ["A=1"; "DB=s3cr3t=="; "A=2"])
  = map entry_key
      (well_formed_entries ["A=1"; "MALFORMED"; "DB=aws-secret:db"; "A=2"]).
Proof.
  apply (resolveSecrets_keeps_keys (world_serving "s3cr3t==")
           ["A=1"; "MALFORMED"; "DB=aws-secret:db"; "A=2"] []
           ["A=1"; "DB=s3cr3t=="; "A=2"]
           [CallLoadDefaultConfig; CallGetSecretValue "db"]).
  vm_compute. reflexivity.
Defined.

(** ** What a call costs *)

Lemma calls_so_far_app h1 h2 :
  calls_so_far (h1 ++ h2) = (calls_so_far h1 + calls_so_far h2)%nat.
Proof.
  induction h1 as [|ev h1 IH]; [reflexivity|].
  cbn [app calls_so_far]. destruct (is_fetch ev); rewrite IH; reflexivity.
Qed.

Lemma config_loads_app h1 h2 :
  config_loads (h1 ++ h2) = (config_loads h1 + config_loads h2)%nat.
Proof.
  induction h1 as [|ev h1 IH]; [reflexivity|].
  destruct ev; cbn [app config_loads]; rewrite IH; reflexivity.
Qed.

Lemma waited_app h1 h2 : waited (h1 ++ h2) = waited h1 + waited h2.
Proof.
  induction h1 as [|ev h1 IH]; [reflexivity|].
  destruct ev; cbn [app waited]; rewrite IH; lia.
Qed.

Lemma decodings_app h1 h2 :
  decodings (h1 ++ h2) = (decodings h1 + decodings h2)%nat.
Proof.
  induction h1 as [|ev h1 IH]; [reflexivity|].
  destruct ev; cbn [app decodings]; rewrite IH; reflexivity.
Qed.

Lemma fetch_course_costs call course :
  (exists name, call = CallGetSecretValue name)
  \/ (exists name, call = CallGetParameter name true) ->
  course ∈ retry_courses call ->
  costs_at_most course 3 (300 * Millisecond) 0.
Proof.
  intros Hcall Hin. unfold retry_courses in Hin. unfold costs_at_most.
  destruct Hcall as [[name ->]|[name ->]];
    repeat (apply elem_of_cons in Hin as [->|Hin];
            [cbn [calls_so_far config_loads waited decodings is_fetch];
             unfold wait_before_attempt, Millisecond; repeat split; lia|]);
    apply elem_of_nil in Hin; contradiction.
Qed.

Lemma costs_nil f wait d : 0 <= wait -> costs_at_most [] f wait d.
Proof. intros Hw. unfold costs_at_most. cbn. repeat split; lia. Qed.

Lemma costs_app evs1 evs2 f1 f2 w1 w2 d1 d2 :
  costs_at_most evs1 f1 w1 d1 ->
  costs_at_most evs2 f2 w2 d2 ->
  costs_at_most (evs1 ++ evs2) (f1 + f2) (w1 + w2) (d1 + d2).
Proof.
  unfold costs_at_most. intros (Ha & Hb & Hc & Hd) (Ha' & Hb' & Hc' & Hd').
  rewrite calls_so_far_app, config_loads_app, waited_app, decodings_app.
  repeat split; lia.
Qed.

Lemma costs_weaken evs f f' wait wait' d d' :
  costs_at_most evs f wait d ->
  (f <= f')%nat -> wait <= wait' -> (d <= d')%nat ->
  costs_at_most evs f' wait' d'.
Proof.
  unfold costs_at_most. intros (Ha & Hb & Hc & Hd) Hf Hw Hdd.
  repeat split; lia.
Qed.

(** An error of a fetch loop comes with the empty string. *)
Lemma getSecret_error_empty w name h v e h' :
  getSecret w name h = (v, Some e, h') -> v = EmptyString.
Proof.
  rewrite getSecret_unrolled. cbv zeta. unfold secret_payload.
  repeat match goal with
         | |- context [match GetSecretValue ?w ?h ?n with _ => _ end] =>
             destruct (GetSecretValue w h n) as [?|[[?|]]]
         | |- context [match ctx_Done ?w ?h ?d with _ => _ end] =>
             destruct (ctx_Done w h d)
         end;
    cbn [SecretString]; intros [= <- _ _] || discriminate; reflexivity.
Qed.

Lemma getParameter_error_empty w name h v e h' :
  getParameter w name h = (v, Some e, h') -> v = EmptyString.
Proof.
  rewrite getParameter_unrolled. cbv zeta. unfold parameter_payload.
  repeat match goal with
         | |- context [match GetParameter ?w ?h ?n true with _ => _ end] =>
             destruct (GetParameter w h n true) as [?|[[[[?|]]|]]]
         | |- context [match ctx_Done ?w ?h ?d with _ => _ end] =>
             destruct (ctx_Done w h d)
         end;
    cbn [Param Value]; intros [= <- _ _] || discriminate; reflexivity.
Qed.

(** One resolution: what it adds to the history, and what it returns with
    an error. *)
Lemma resolveSecret_shape w ref h v err h' :
  resolveSecret w ref h = (v, err, h') ->
  (exists evs, h' = h ++ evs /\ costs_at_most evs 3 (300 * Millisecond) 1)
  /\ (is_Some err -> v = EmptyString).
Proof.
  unfold resolveSecret. cbv zeta.
  assert (Hquiet : costs_at_most [] 3 (300 * Millisecond) 1)
    by (apply costs_nil; unfold Millisecond; lia).
  destruct (String.eqb (strings.TrimPrefix ref secretPrefix) "").
  { intros [= <- <- <-]. split; [|reflexivity].
    exists []. rewrite app_nil_r. auto. }
  destruct (strings.HasPrefix (strings.TrimPrefix ref secretPrefix)
              ssmReferencePath).
  { intros Hrun. split.
    - apply getParameter_retry_outcome in Hrun as (course & -> & Hin & _).
      exists course. split; [reflexivity|].
      eapply costs_weaken;
        [apply (fetch_course_costs _ course
                  (or_intror (ex_intro _ _ eq_refl)) Hin)| | |]; lia.
    - intros [e ->]. eapply getParameter_error_empty, Hrun. }
  destruct (String.eqb (index_parts _ 0) "").
  { intros [= <- <- <-]. split; [|reflexivity].
    exists []. rewrite app_nil_r. auto. }
  unfold bind.
  destruct (getSecret w _ h) as [[raw gerr] h1] eqn:Hfetch.
  assert (Hcourse : exists course,
            h1 = h ++ course /\ costs_at_most course 3 (300 * Millisecond) 0).
  { apply getSecret_retry_outcome in Hfetch as (course & -> & Hin & _).
    exists course. split; [reflexivity|].
    apply (fetch_course_costs _ course (or_introl (ex_intro _ _ eq_refl)) Hin). }
  destruct Hcourse as (course & -> & Hcost).
  destruct gerr as [gerr|].
  { intros [= <- <- <-]. split; [|reflexivity].
    exists course. split; [reflexivity|].
    eapply costs_weaken; eauto; lia. }
  destruct (length _ =? 1)%nat.
  { intros [= <- <- <-]. split; [|intros [e He]; discriminate He].
    exists course. split; [reflexivity|].
    eapply costs_weaken; eauto; lia. }
  unfold call_Unmarshal.
  assert (Hdecoded : costs_at_most (course ++ [CallUnmarshal raw]) 3
                       (300 * Millisecond) 1).
  { eapply costs_weaken;
      [apply (costs_app course [CallUnmarshal raw] 3 0 (300 * Millisecond) 0
                0 1 Hcost)| | |]; try lia.
    unfold costs_at_most. cbn. repeat split; lia. }
  destruct (Unmarshal w raw) as [cause|parsed].
  { intros [= <- <- <-]. split; [|reflexivity].
    exists (course ++ [CallUnmarshal raw]). rewrite app_assoc. auto. }
  destruct (parsed !! _).
  - intros [= <- <- <-]. split; [|intros [e He]; discriminate He].
    exists (course ++ [CallUnmarshal raw]). rewrite app_assoc. auto.
  - intros [= <- <- <-]. split; [|reflexivity].
    exists (course ++ [CallUnmarshal raw]). rewrite app_assoc. auto.
Qed.

Lemma resolveSecrets_loop_costs w env : forall acc h out err h',
  resolveSecrets_loop w env acc h = (out, err, h') ->
  exists evs,
    h' = h ++ evs
    /\ costs_at_most evs (3 * reference_count env)
         (300 * Millisecond * Z.of_nat (reference_count env))
         (reference_count env).
Proof.
  induction env as [|e env IH]; intros acc h out err h'.
  - cbn. unfold ret. intros [= _ _ <-]. exists []. rewrite app_nil_r.
    split; [reflexivity|]. apply costs_nil. lia.
  - cbn [resolveSecrets_loop reference_count]. unfold value_is_reference.
    destruct (strings.Cut e "=") as [[name value] found].
    destruct found; cbn [negb andb]; [|apply IH].
    destruct (strings.HasPrefix value secretPrefix); [|apply IH].
    unfold bind.
    destruct (resolveSecret w value h) as [[resolved rerr] h1] eqn:Hres.
    apply resolveSecret_shape in Hres as [(evs1 & -> & Hcost1) _].
    destruct rerr as [rerr|].
    + unfold ret. intros [= _ _ <-]. exists evs1. split; [reflexivity|].
      eapply costs_weaken; eauto; unfold Millisecond; lia.
    + intros Hrest. apply IH in Hrest as (evs2 & -> & Hcost2).
      exists (evs1 ++ evs2). split; [symmetry; apply app_assoc|].
      eapply costs_weaken; [apply (costs_app _ _ _ _ _ _ _ _ Hcost1 Hcost2)| | |];
        unfold Millisecond; lia.
Qed.

(** The whole call: the configuration is loaded when, and only when, some
    entry contains the prefix, and the rest is the cost of the loop. *)
Lemma resolveSecrets_costs w env h out err h' :
  resolveSecrets w env h = (out, err, h') ->
  exists evs,
    h' = h ++ evs
    /\ config_loads evs
       = (if existsb (fun e => strings.Contains e secretPrefix) env
          then 1%nat else 0%nat)
    /\ (calls_so_far evs <= 3 * reference_count env)%nat
    /\ 0 <= waited evs <= 300 * Millisecond * Z.of_nat (reference_count env)
    /\ (decodings evs <= reference_count env)%nat.
Proof.
  unfold resolveSecrets.
  destruct (existsb _ env); cbn [negb].
  - unfold bind, call_LoadDefaultConfig.
    destruct (LoadDefaultConfig w h).
    + unfold ret. intros [= _ _ <-]. exists [CallLoadDefaultConfig].
      cbn. repeat split; unfold Millisecond; lia.
    + intros Hloop.
      apply resolveSecrets_loop_costs in Hloop as (evs & -> & Hc & Hl & Hw & Hd).
      exists (CallLoadDefaultConfig :: evs). split.
      * rewrite <- app_assoc. reflexivity.
      * cbn [config_loads calls_so_far is_fetch waited decodings].
        rewrite Hl. repeat split; lia.
  - unfold ret. intros [= _ _ <-]. exists []. rewrite app_nil_r.
    cbn. repeat split; unfold Millisecond; lia.
Qed.

(** X4.  The SDK configuration is loaded, and with it both clients are
    built, exactly once in a call where some entry contains the prefix,
    however many references there are and whether or not the call
    succeeds, and never in a call where none does. *)
Theorem resolveSecrets_loads_config_once (w : world) (env : list string)
    (h : history) (out : list string) (err : option error) (h' : history) :
  resolveSecrets w env h = (out, err, h') ->
  exists evs,
    h' = h ++ evs
    /\ config_loads evs
       = (if existsb (fun e => strings.Contains e secretPrefix) env
          then 1%nat else 0%nat).
Proof.
  intros Hrun.
  apply resolveSecrets_costs in Hrun as (evs & Hh & Hloads & _).
  exists evs. split; assumption.
Qed.

Lemma resolveSecrets_loads_config_once_witness :
  exists evs,
    [CallLoadDefaultConfig; CallGetSecretValue "a"; CallGetSecretValue "b"]
    = [] ++ evs
    /\ config_loads evs
       = (if existsb (fun e => strings.Contains e secretPrefix)
               ["A=aws-secret:a"; "B=aws-secret:b"]
          then 1%nat else 0%nat).
Proof.
  apply (resolveSecrets_loads_config_once (world_serving "s")
           ["A=aws-secret:a"; "B=aws-secret:b"] [] ["A=s"; "B=s"] None).
  vm_compute. reflexivity.
Defined.

(** X5.  A call makes at most three fetches and one decoding for each
    entry whose value is a reference, and none for the other entries. *)
Theorem resolveSecrets_fetches_per_reference (w : world) (env : list string)
    (h : history) (out : list string) (err : option error) (h' : history) :
  resolveSecrets w env h = (out, err, h') ->
  exists evs,
    h' = h ++ evs
    /\ (calls_so_far evs <= 3 * reference_count env)%nat
    /\ (decodings evs <= reference_count env)%nat.
Proof.
  intros Hrun.
  apply resolveSecrets_costs in Hrun as (evs & Hh & _ & Hcalls & _ & Hdec).
  exists evs. repeat split; assumption.
Qed.

Lemma resolveSecrets_fetches_per_reference_witness :
  exists evs,
    [CallLoadDefaultConfig; CallGetSecretValue "db"; TimerFired 100000000;
     CallGetSecretValue "db"; TimerFired 200000000; CallGetSecretValue "db"]
    = [] ++ evs
    /\ (calls_so_far evs
        <= 3 * reference_count ["PATH=/bin"; "DB=aws-secret:db#url"; "X=1"])%nat
    /\ (decodings evs
        <= reference_count ["PATH=/bin"; "DB=aws-secret:db#url"; "X=1"])%nat.
Proof.
  apply (resolveSecrets_fetches_per_reference world_unreachable
           ["PATH=/bin"; "DB=aws-secret:db#url"; "X=1"] [] []
           (Some (FailedToResolve "DB"
                    (FailedAfterRetries 3 (Some (External "timeout 3")))))).
  vm_compute. reflexivity.
Defined.

(** X6.  The waits between attempts add up to at most 300ms in a fetch
    loop (100ms before the second attempt, 200ms before the third), hence
    to at most 300ms for each reference entry in a whole call. *)
Theorem retry_waits_are_bounded (w : world) (h : history) :
  (forall name v err h',
     getSecret w name h = (v, err, h') ->
     exists evs, h' = h ++ evs /\ 0 <= waited evs <= 300 * Millisecond)
  /\ (forall name v err h',
        getParameter w name h = (v, err, h') ->
        exists evs, h' = h ++ evs /\ 0 <= waited evs <= 300 * Millisecond)
  /\ (forall env out err h',
        resolveSecrets w env h = (out, err, h') ->
        exists evs,
          h' = h ++ evs
          /\ 0 <= waited evs
             <= 300 * Millisecond * Z.of_nat (reference_count env)).
Proof.
  split; [|split].
  - intros name v err h' Hrun.
    apply getSecret_retry_outcome in Hrun as (course & -> & Hin & _).
    exists course. split; [reflexivity|].
    apply (fetch_course_costs _ course (or_introl (ex_intro _ _ eq_refl)) Hin).
  - intros name v err h' Hrun.
    apply getParameter_retry_outcome in Hrun as (course & -> & Hin & _).
    exists course. split; [reflexivity|].
    apply (fetch_course_costs _ course (or_intror (ex_intro _ _ eq_refl)) Hin).
  - intros env out err h' Hrun.
    apply resolveSecrets_costs in Hrun as (evs & Hh & _ & _ & Hw & _).
    exists evs. split; assumption.
Qed.

Lemma retry_waits_are_bounded_witness :
  (exists evs,
     [CallGetSecretValue "db"; TimerFired 100000000; CallGetSecretValue "db";
      TimerFired 200000000; CallGetSecretValue "db"] = [] ++ evs
     /\ 0 <= waited evs <= 300 * Millisecond)
  /\ (exists evs,
        [CallGetParameter "/p" true; ContextDone 100000000] = [] ++ evs
        /\ 0 <= waited evs <= 300 * Millisecond).
Proof.
  destruct (retry_waits_are_bounded world_unreachable []) as (Hs & _ & _).
  destruct (retry_waits_are_bounded world_cancelled []) as (_ & Hp & _).
  split.
  - apply (Hs "db" ""
             (Some (FailedAfterRetries 3 (Some (External "timeout 3"))))).
    vm_compute. reflexivity.
  - apply (Hp "/p" "" (Some (External "context canceled"))).
    vm_compute. reflexivity.
Defined.

(** X7.  Whenever [getSecret], [getParameter] or [resolveSecret] returns
    an error, the string returned with it is empty: no fetched or
    half-extracted value ever accompanies an error. *)
Theorem errors_carry_no_value (w : world) (h : history) :
  (forall name v e h', getSecret w name h = (v, Some e, h') -> v = EmptyString)
  /\ (forall name v e h',
        getParameter w name h = (v, Some e, h') -> v = EmptyString)
  /\ (forall ref v e h',
        resolveSecret w ref h = (v, Some e, h') -> v = EmptyString).
Proof.
  split; [|split].
  - intros name v e h'. apply getSecret_error_empty.
  - intros name v e h'. apply getParameter_error_empty.
  - intros ref v e h' Hrun.
    apply resolveSecret_shape in Hrun as [_ Hempty]. apply Hempty. eauto.
Qed.

Lemma errors_carry_no_value_witness :
  EmptyString = EmptyString /\ EmptyString = EmptyString.
Proof.
  destruct (errors_carry_no_value (world_serving test_payload) [])
    as (_ & _ & Hr).
  destruct (errors_carry_no_value world_empty_then_value []) as (Hs & _ & _).
  split.
  - apply (Hr "aws-secret:myapp/prod#password" ""
             (KeyNotFound "password" "myapp/prod")
             [CallGetSecretValue "myapp/prod"; CallUnmarshal test_payload]).
    vm_compute. reflexivity.
  - apply (Hs "s" "" BinarySecret [CallGetSecretValue "s"]). reflexivity.
Defined.

(** X8.  [resolveSecret] strips the prefix when it is there and takes the
    reference as it is when it is not: a reference without the prefix
    resolves exactly as the same reference with it. *)
Theorem resolveSecret_prefix_is_optional (w : world) (ref : string)
    (h : history) :
  strings.HasPrefix ref secretPrefix = false ->
  resolveSecret w ref h = resolveSecret w (secretPrefix +:+ ref) h.
Proof.
  intros Hbare. unfold resolveSecret.
  rewrite TrimPrefix_append. unfold strings.TrimPrefix. rewrite Hbare.
  reflexivity.
Qed.

Lemma resolveSecret_prefix_is_optional_witness :
  resolveSecret (world_serving test_payload) "myapp/prod#api_key" []
  = resolveSecret (world_serving test_payload)
      (secretPrefix +:+ "myapp/prod#api_key") [].
Proof.
  apply (resolveSecret_prefix_is_optional (world_serving test_payload)
           "myapp/prod#api_key" []).
  reflexivity.
Defined.

(** X9.  A value that a fetch loop returns without error is the one the
    store answered at the last attempt made: the history ends with that
    attempt, and earlier failures leave nothing in the result. *)
Theorem fetch_returns_last_answer (w : world) (name : string) (h : history) :
  (forall v h',
     getSecret w name h = (v, None, h') ->
     exists before,
       h' = h ++ before ++ [CallGetSecretValue name]
       /\ GetSecretValue w (h ++ before) name
          = inr {| SecretString := Some v |})
  /\ (forall v h',
        getParameter w name h = (v, None, h') ->
        exists before,
          h' = h ++ before ++ [CallGetParameter name true]
          /\ GetParameter w (h ++ before) name true
             = inr {| Param := Some {| Value := Some v |} |}).
Proof.
  split; intros v h'.
  - rewrite getSecret_unrolled. cbv zeta. unfold secret_payload.
    destruct (GetSecretValue w h name) as [?|[[s|]]] eqn:H1;
      cbn [SecretString].
    2: { intros [= <- <-]. exists []. rewrite app_nil_r. auto. }
    2: { discriminate. }
    destruct (ctx_Done w _ _); [discriminate|].
    destruct (GetSecretValue w (h ++ [_; _]) name) as [?|[[s|]]] eqn:H2;
      cbn [SecretString].
    2: { intros [= <- <-]. eexists [_; _]. eauto. }
    2: { discriminate. }
    destruct (ctx_Done w _ _); [discriminate|].
    destruct (GetSecretValue w (h ++ [_; _; _; _]) name) as [?|[[s|]]] eqn:H3;
      cbn [SecretString]; try discriminate.
    intros [= <- <-]. eexists [_; _; _; _]. eauto.
  - rewrite getParameter_unrolled. cbv zeta. unfold parameter_payload.
    destruct (GetParameter w h name true) as [?|[[[[s|]]|]]] eqn:H1;
      cbn [Param Value].
    2: { intros [= <- <-]. exists []. rewrite app_nil_r. auto. }
    2, 3: discriminate.
    destruct (ctx_Done w _ _); [discriminate|].
    destruct (GetParameter w (h ++ [_; _]) name true)
      as [?|[[[[s|]]|]]] eqn:H2; cbn [Param Value].
    2: { intros [= <- <-]. eexists [_; _]. eauto. }
    2, 3: discriminate.
    destruct (ctx_Done w _ _); [discriminate|].
    destruct (GetParameter w (h ++ [_; _; _; _]) name true)
      as [?|[[[[s|]]|]]] eqn:H3; cbn [Param Value]; try discriminate.
    intros [= <- <-]. eexists [_; _; _; _]. eauto.
Qed.

Lemma fetch_returns_last_answer_witness :
  (exists before,
     [CallGetSecretValue "s"; TimerFired 100000000; CallGetSecretValue "s"]
     = [] ++ before ++ [CallGetSecretValue "s"]
     /\ GetSecretValue world_flaky ([] ++ before) "s"
        = inr {| SecretString := Some "later" |})
  /\ (exists before,
        [CallGetParameter "/p" true; TimerFired 100000000;
         CallGetParameter "/p" true]
        = [] ++ before ++ [CallGetParameter "/p" true]
        /\ GetParameter world_flaky ([] ++ before) "/p" true
           = inr {| Param := Some {| Value := Some "later" |} |}).
Proof.
  split.
  - apply (fetch_returns_last_answer world_flaky "s" []).
    vm_compute. reflexivity.
  - apply (fetch_returns_last_answer world_flaky "/p" []).
    vm_compute. reflexivity.
Defined.

(** ** Exit codes *)

Lemma ExitStatus_range w : -1 <= WaitStatus.ExitStatus w <= 255.
Proof.
  unfold WaitStatus.ExitStatus.
  destruct (negb (WaitStatus.Exited w)); [lia|].
  replace (Z.land (Z.shiftr w WaitStatus.shift) 0xFF)
    with (Z.shiftr w WaitStatus.shift mod 256)
    by (symmetry; apply (Z.land_ones _ 8); lia).
  pose proof (Z.mod_pos_bound (Z.shiftr w WaitStatus.shift) 256).
  lia.
Qed.

(** X10.  Whatever the operating system answers, [execute] returns a code
    between -1 and 255. *)
Theorem execute_code_range (p : process_world) (command : string)
    (args : list string) (env : slice) :
  -1 <= fst (execute p command args env) <= 255.
Proof.
  unfold execute.
  destruct (cmd_Start p command args env); cbn [fst]; try lia.
  destruct (cmd_Wait p) as [[[status|]|err]|]; cbn [fst]; try lia.
  apply ExitStatus_range.
Qed.

Lemma execute_child_ending pid t command args (env : slice) :
  fst (execute (child_ending pid t) command args env)
  = WaitStatus.ExitStatus (status_word t).
Proof.
  unfold execute, child_ending, Wait_of. cbn [cmd_Start cmd_Wait]. cbv zeta.
  destruct (Z.eqb_spec (WaitStatus.ExitStatus (status_word t)) 0) as [->|_];
    reflexivity.
Qed.

(** X11.  For a child that the kernel reports as ended, [execute] returns 0
    exactly when the child exited with code 0: neither a non-zero exit nor
    a death by signal is ever reported as success. *)
Theorem execute_zero_means_success (pid : Z) (t : termination)
    (command : string) (args : list string) (env : slice) :
  well_formed_termination t ->
  (fst (execute (child_ending pid t) command args env) = 0
   <-> t = ExitedWith 0).
Proof.
  intros Hwf. rewrite execute_child_ending.
  destruct t as [code|sig coredump]; cbn [well_formed_termination] in Hwf.
  - rewrite (ExitStatus_exited code Hwf). split; [intros ->|intros [= ->]];
      reflexivity.
  - rewrite (ExitStatus_signaled sig coredump Hwf).
    split; [lia|discriminate].
Qed.

Lemma execute_zero_means_success_witness :
  (fst (execute (child_ending 7 (KilledBy SIGTERM false)) "sleep" ["60"]
          (Some ["PATH=/usr/bin:/bin"])) = 0
   <-> KilledBy SIGTERM false = ExitedWith 0)
  /\ (fst (execute (child_ending 7 (ExitedWith 0)) "true" []
             (Some ["PATH=/usr/bin:/bin"])) = 0
      <-> ExitedWith 0 = ExitedWith 0).
Proof.
  split.
  - apply (execute_zero_means_success 7 (KilledBy SIGTERM false)).
    cbn. unfold SIGTERM. lia.
  - apply (execute_zero_means_success 7 (ExitedWith 0)). cbn. lia.
Defined.

(** ** The signal handler, signal by signal *)

(** X12.  What the handler does with one signal, whichever it is and
    whatever the state of the child: when the signal is one of the five
    registered signals it calls [syscall.Kill] twice, for the group and then
    for the child, and it makes no call otherwise (a signal outside the
    five, a value that is no [syscall.Signal]); of the two calls, the one to
    the group reaches it if the group still has a member and the one to the
    child reaches it if the child still exists, each on its own; it starts
    a timer for SIGTERM and for no other signal; it changes neither the
    clock nor what exists. *)
Theorem handleSignal_effect (pid : Z) (sig : os_Signal) (s : supervisor) :
  0 < pid ->
  sent (handleSignal pid sig s) = sent s ++ sends pid sig s
  /\ delivered (handleSignal pid sig s)
     = delivered s ++ reaching pid s (sends pid sig s)
  /\ (forall t n,
        reaching pid s (forwarded pid t n)
        = (if group_running s then [(t, - pid, n)] else [])
          ++ (if child_running s then [(t, pid, n)] else []))
  /\ timers (handleSignal pid sig s)
     = timers s ++ (if is_syscall sig SIGTERM
                    then [now s + gracefulTimeout] else [])
  /\ now (handleSignal pid sig s) = now s
  /\ child_running (handleSignal pid sig s) = child_running s
  /\ group_running (handleSignal pid sig s) = group_running s.
Proof.
  intros Hpid.
  destruct (handleSignal_spec pid sig s) as (Hn & Hc & Hg & Ht & Hs & Hd).
  split; [exact Hs|]. split; [exact Hd|].
  split; [intros t n; apply (reaching_forwarded pid Hpid)|]. auto.
Qed.

Lemma handleSignal_effect_witness :
  sent (handleSignal 42 (syscall_Signal SIGINT) (child_exits started))
  = [] ++ [(0, - 42, SIGINT); (0, 42, SIGINT)]
  /\ delivered (handleSignal 42 (syscall_Signal SIGINT) (child_exits started))
     = [] ++ [(0, - 42, SIGINT)]
  /\ sent (handleSignal 42 (syscall_Signal SIGKILL) started) = [] ++ [].
Proof.
  assert (Hpid : 0 < 42) by lia.
  destruct (handleSignal_effect 42 (syscall_Signal SIGINT)
              (child_exits started) Hpid) as (Hs & Hd & _).
  destruct (handleSignal_effect 42 (syscall_Signal SIGKILL) started Hpid)
    as (Hs' & _).
  split; [exact Hs|]. split; [exact Hd|exact Hs'].
Defined.

Lemma handleSignals_frame pid sigChan : forall s,
  now (handleSignals pid sigChan s) = now s
  /\ child_running (handleSignals pid sigChan s) = child_running s
  /\ timers (handleSignals pid sigChan s)
     = timers s
       ++ replicate (count_SIGTERM sigChan) (now s + gracefulTimeout).
Proof.
  unfold handleSignals.
  induction sigChan as [|sig rest IH]; intros s; cbn [fold_left count_SIGTERM].
  - rewrite app_nil_r. auto.
  - destruct (IH (handleSignal pid sig s)) as (Hn & Hr & Ht).
    destruct (handleSignal_spec pid sig s) as (Hn1 & Hr1 & _ & Ht1 & _).
    rewrite Hn, Hr, Ht, Hn1, Hr1, Ht1.
    destruct (is_syscall sig SIGTERM); cbn [replicate].
    + rewrite <- app_assoc. auto.
    + rewrite app_nil_r. auto.
Qed.

(** X13.  A burst of signals read from the channel leaves one sleeping
    goroutine for each SIGTERM in it, all with the same deadline, beside
    the ones that were already sleeping: nothing is deduplicated, and no
    other signal adds or removes one. *)
Theorem handleSignals_one_timer_per_SIGTERM (pid : Z)
    (sigChan : list os_Signal) (s : supervisor) :
  timers (handleSignals pid sigChan s)
  = timers s ++ replicate (count_SIGTERM sigChan) (now s + gracefulTimeout)
  /\ length (timers (handleSignals pid sigChan s))
     = (length (timers s) + count_SIGTERM sigChan)%nat.
Proof.
  destruct (handleSignals_frame pid sigChan s) as (_ & _ & Ht).
  split; [exact Ht|].
  rewrite Ht, length_app, length_replicate. reflexivity.
Qed.

(** ** No forced kill without a SIGTERM *)

Section KillInvariant.

Variable pid : Z.

Lemma handled_not_SIGKILL n :
  is_handled (syscall_Signal n) = true -> n <> SIGKILL.
Proof. intros H ->. discriminate H. Qed.

Lemma sends_no_SIGKILL sig s t target :
  (t, target, SIGKILL) ∈ sends pid sig s -> False.
Proof.
  unfold sends, forwarded. destruct sig as [n|name]; [|apply elem_of_nil].
  destruct (is_handled (syscall_Signal n)) eqn:Hh; [|apply elem_of_nil].
  apply handled_not_SIGKILL in Hh.
  intros Hin. repeat (apply elem_of_cons in Hin as [Hin|Hin]; [congruence|]).
  apply elem_of_nil in Hin. exact Hin.
Qed.

Lemma reaching_was_sent s calls call :
  call ∈ reaching pid s calls -> call ∈ calls.
Proof. intros Hin. apply reaching_elem_of in Hin. tauto. Qed.

Lemma follows_handleSignal sig s :
  follows pid s -> follows pid (handleSignal pid sig s).
Proof.
  intros (Hk & Ht & Hd).
  destruct (handleSignal_spec pid sig s) as (_ & _ & _ & Htim & Hsent & Hdel).
  split; [|split].
  - intros t target Hin. rewrite Hsent in *.
    apply elem_of_app in Hin as [Hin|Hin].
    + destruct (Hk t target Hin) as (Htarget & Hg & Hc).
      split; [exact Htarget|]. split; apply elem_of_app; auto.
    + destruct (sends_no_SIGKILL sig s t target Hin).
  - intros deadline Hin. rewrite Htim in Hin. rewrite Hsent.
    apply elem_of_app in Hin as [Hin|Hin].
    + destruct (Ht deadline Hin). split; apply elem_of_app; auto.
    + destruct (is_syscall sig SIGTERM) eqn:Hterm;
        [|apply elem_of_nil in Hin; contradiction].
      apply list_elem_of_singleton in Hin. subst deadline.
      apply is_syscall_eq in Hterm. subst sig.
      replace (now s + gracefulTimeout - gracefulTimeout) with (now s) by lia.
      split; apply elem_of_app; right; unfold sends, forwarded; cbn.
      * apply list_elem_of_here.
      * apply list_elem_of_further, list_elem_of_here.
  - intros call Hin. rewrite Hdel in Hin. rewrite Hsent.
    apply elem_of_app in Hin as [Hin|Hin]; apply elem_of_app.
    + left. apply Hd, Hin.
    + right. eapply reaching_was_sent, Hin.
Qed.

Lemma follows_elapse d s : follows pid s -> follows pid (elapse pid d s).
Proof.
  intros (Hk & Ht & Hd).
  destruct (elapse_spec pid d s) as (_ & _ & _ & Htim & Hsent & Hdel).
  split; [|split].
  - intros t target Hin. rewrite Hsent in *.
    apply elem_of_app in Hin as [Hin|Hin].
    + destruct (Hk t target Hin) as (Htarget & Hg & Hc).
      split; [exact Htarget|]. split; apply elem_of_app; auto.
    + apply list_elem_of_In, in_flat_map in Hin as (deadline & Hdue & Hin).
      apply list_elem_of_In, list_elem_of_filter in Hdue as [_ Hdue].
      destruct (Ht deadline Hdue) as [Hg Hc].
      apply list_elem_of_In in Hin. unfold forced_kills in Hin.
      assert (Hcall : t = deadline /\ (target = pid \/ target = - pid)).
      { repeat (apply elem_of_cons in Hin as [Hin|Hin];
                [injection Hin as -> ->; auto|]).
        apply elem_of_nil in Hin. contradiction. }
      destruct Hcall as [-> Htarget].
      split; [exact Htarget|]. split; apply elem_of_app; auto.
  - intros deadline Hin. rewrite Htim in Hin. rewrite Hsent.
    apply list_elem_of_filter in Hin as [_ Hin].
    destruct (Ht deadline Hin). split; apply elem_of_app; auto.
  - intros call Hin. rewrite Hdel in Hin. rewrite Hsent.
    apply elem_of_app in Hin as [Hin|Hin]; apply elem_of_app.
    + left. apply Hd, Hin.
    + right. eapply reaching_was_sent, Hin.
Qed.

Lemma follows_run steps : forall s, follows pid s -> follows pid (run pid steps s).
Proof.
  induction steps as [|e steps IH]; intros s Hs; [exact Hs|].
  unfold run in *. cbn [fold_left]. apply IH.
  destruct e as [sig|d| |]; cbn [run_step].
  - apply follows_handleSignal, Hs.
  - apply follows_elapse, Hs.
  - exact Hs.
  - exact Hs.
Qed.

Lemma follows_started : follows pid started.
Proof.
  split; [|split].
  - intros t target Hin. apply elem_of_nil in Hin. contradiction.
  - intros deadline Hin. apply elem_of_nil in Hin. contradiction.
  - intros call Hin. apply elem_of_nil in Hin. contradiction.
Qed.

End KillInvariant.

(** X14.  Whatever signals arrive, however time passes, and whenever the
    child and the rest of its group end, the handler sends a SIGKILL to the
    child's pid or to its group only, and only at the moment that lies one
    graceful timeout after it forwarded a SIGTERM to both; and whatever
    reaches a process is a call it made.  So every SIGKILL that reaches
    the child or a member of its group comes ten seconds after the handler
    passed on a request to terminate. *)
Theorem forced_kill_only_after_SIGTERM (pid : Z) (steps : list step) :
  kills_follow_SIGTERM pid (run pid steps started)
  /\ delivered_was_sent (run pid steps started)
  /\ (forall t target,
        (t, target, SIGKILL) ∈ delivered (run pid steps started) ->
        (target = pid \/ target = - pid)
        /\ (t - gracefulTimeout, - pid, SIGTERM) ∈ sent (run pid steps started)
        /\ (t - gracefulTimeout, pid, SIGTERM) ∈ sent (run pid steps started)).
Proof.
  destruct (follows_run pid steps started (follows_started pid))
    as (Hk & _ & Hd).
  split; [exact Hk|]. split; [exact Hd|].
  intros t target Hin. apply Hk, Hd, Hin.
Qed.

(** ** The entry point *)

(** The pipeline with the nil slices returns the entries of the pipeline
    on lists, in a slice that is nil when none was appended. *)
Lemma resolveSecrets_slice_loop_spec w env : forall result h,
  result = nil_if_empty (elements result) ->
  resolveSecrets_slice_loop w env result h
  = let '(out, err, h') := resolveSecrets_loop w env (elements result) h in
    (nil_if_empty out, err, h').
Proof.
  assert (Happ : forall result x,
            slice_append result x
            = nil_if_empty (elements (slice_append result x))).
  { intros result x. unfold slice_append. cbn.
    destruct (elements result); reflexivity. }
  induction env as [|e env IH]; intros result h Hres.
  - cbn. unfold ret. congruence.
  - cbn [resolveSecrets_slice_loop resolveSecrets_loop].
    destruct (strings.Cut e "=") as [[name value] found].
    destruct found; cbn [negb]; [|apply IH, Hres].
    destruct (strings.HasPrefix value secretPrefix).
    + unfold bind.
      destruct (resolveSecret w value h) as [[resolved rerr] h1].
      destruct rerr; [reflexivity|].
      rewrite (IH _ h1 (Happ result _)). reflexivity.
    + rewrite (IH _ h (Happ result _)). reflexivity.
Qed.

Lemma resolveSecrets_slice_spec w env h :
  resolveSecrets_slice w env h
  = let '(out, err, h') := resolveSecrets w (elements env) h in
    (if existsb (fun e => strings.Contains e secretPrefix) (elements env)
     then nil_if_empty out else env,
     err, h').
Proof.
  unfold resolveSecrets_slice, resolveSecrets.
  destruct (existsb _ (elements env)); cbn [negb]; [|reflexivity].
  unfold bind, call_LoadDefaultConfig.
  destruct (LoadDefaultConfig w h); [reflexivity|].
  apply (resolveSecrets_slice_loop_spec w (elements env) None). reflexivity.
Qed.

(** The loop keeps at least one entry unless every entry is without
    ["="]. *)
Lemma resolved_entries_none w env h h' :
  resolved_entries w env h [] h' ->
  Forall (fun e => malformed e = true) env.
Proof.
  intros Hres. remember [] as out eqn:Hout.
  induction Hres; try discriminate Hout; constructor; auto.
Qed.

Lemma execute_CmdStart p command args env c a e setpgid :
  CmdStart c a e setpgid ∈ snd (execute p command args env) ->
  c = command /\ a = args /\ e = env /\ setpgid = true.
Proof.
  unfold execute.
  destruct (cmd_Start p command args env) as [err| |child]; cbn [snd app].
  1, 2: intros Hin;
    repeat (apply elem_of_cons in Hin as [Hin|Hin];
            [first [discriminate Hin | injection Hin as -> -> -> ->; auto]|]);
    apply elem_of_nil in Hin; contradiction.
  destruct (cmd_Wait p) as [[[status|]|err]|]; cbn [snd app]; intros Hin;
    repeat (apply elem_of_cons in Hin as [Hin|Hin];
            [first [discriminate Hin | injection Hin as -> -> -> ->; auto]|]);
    apply elem_of_nil in Hin; contradiction.
Qed.

(** X15.  [main] starts a command only when neither flag is given and the
    whole environment was resolved without error, and then it is the first
    argument that is started, with the remaining arguments, in a process
    group of its own, and with [cmd.Env] set to the slice [resolveSecrets]
    returned.  That slice is nil when the loop of [resolveSecrets] kept no
    entry; so the child is given the entries [resolveSecrets] returned when
    there is one, and otherwise the environment of aws-init itself, as it
    is, which then holds nothing but entries without ["="].  After a failed
    resolution nothing is started. *)
Theorem main_starts_after_resolution (i : invocation) (w : world)
    (identity : option error) (p : process_world)
    (command : string) (args : list string) (Env : slice) (setpgid : bool) :
  CmdStart command args Env setpgid ∈ executed (main i w identity p) ->
  versionFlag i = false
  /\ healthFlag i = false
  /\ Args i = command :: args
  /\ setpgid = true
  /\ exists out,
       resolveSecrets w (Environ i) []
       = (out, None, resolved_with (main i w identity p))
       /\ Env = (if existsb (fun e => strings.Contains e secretPrefix)
                      (Environ i)
                 then nil_if_empty out else Some (Environ i))
       /\ Cmd_environ (Environ i) Env
          = match out with
            | [] => Environ i
            | _ => out
            end
       /\ (out = [] -> Forall (fun e => malformed e = true) (Environ i)).
Proof.
  unfold main.
  destruct (versionFlag i);
    [intros Hin; apply elem_of_nil in Hin; contradiction|].
  destruct (healthFlag i).
  { destruct (healthCheck w identity) as [[message|] out];
      intros Hin; apply elem_of_nil in Hin; contradiction. }
  destruct (Args i) as [|c a];
    [intros Hin; apply elem_of_nil in Hin; contradiction|].
  cbv zeta. rewrite resolveSecrets_slice_spec.
  change (elements (Some (Environ i))) with (Environ i).
  destruct (resolveSecrets w (Environ i) []) as [[out [err|]] h] eqn:Hrun;
    [intros Hin; apply elem_of_nil in Hin; contradiction|].
  match goal with
  | |- context [execute p c a ?env] =>
      set (sl := env);
      destruct (execute p c a sl) as [code events] eqn:Hexec
  end.
  cbn [executed resolved_with]. intros Hin.
  assert (Hev : events = snd (execute p c a sl)) by (rewrite Hexec; reflexivity).
  rewrite Hev in Hin.
  apply execute_CmdStart in Hin as (-> & -> & -> & ->).
  repeat (split; [reflexivity|]).
  exists out. split; [reflexivity|]. split; [reflexivity|].
  destruct (resolveSecrets_cases w (Environ i) [] out None h Hrun)
    as [(Hnone & -> & _ & _)|[(cause & _ & _ & Habs & _)|[_ Hloop]]];
    [| discriminate Habs |].
  - unfold sl. rewrite (no_secrets_existsb (Environ i) Hnone).
    cbn [Cmd_environ]. split; [destruct (Environ i); reflexivity|].
    intros ->. constructor.
  - apply resolveSecrets_loop_spec in Hloop.
    destruct Hloop as (out' & -> & Hres). cbn [app] in *. split.
    + unfold sl.
      destruct (existsb _ (Environ i)) eqn:Hex.
      * destruct out'; reflexivity.
      * apply existsb_false_Forall in Hex.
        rewrite (resolveSecrets_fast_path w (Environ i) [] Hex) in Hrun.
        injection Hrun as <- _. cbn [Cmd_environ].
        destruct (Environ i); reflexivity.
    + intros ->. eapply resolved_entries_none, Hres.
Qed.

Lemma main_starts_after_resolution_witness :
  (versionFlag {| versionFlag := false; healthFlag := false;
                  Args := ["python"; "app.py"]; Getpid := 1;
                  Environ := ["DB=aws-secret:db"; "PORT=80"];
                  version := "dev" |} = false
   /\ false = false
   /\ ["python"; "app.py"] = "python" :: ["app.py"]
   /\ true = true
   /\ exists out,
        resolveSecrets (world_serving "s3cr3t")
          ["DB=aws-secret:db"; "PORT=80"] []
        = (out, None, [CallLoadDefaultConfig; CallGetSecretValue "db"])
        /\ Some ["DB=s3cr3t"; "PORT=80"] = nil_if_empty out
        /\ ["DB=s3cr3t"; "PORT=80"]
           = match out with
             | [] => ["DB=aws-secret:db"; "PORT=80"]
             | _ => out
             end
        /\ (out = [] ->
            Forall (fun e => malformed e = true)
              ["DB=aws-secret:db"; "PORT=80"]))
  /\ (versionFlag {| versionFlag := false; healthFlag := false;
                     Args := ["env"]; Getpid := 1;
                     Environ := ["MALFORMED_aws-secret:x"];
                     version := "dev" |} = false
      /\ false = false
      /\ ["env"] = "env" :: []
      /\ true = true
      /\ exists out,
           resolveSecrets (world_serving "s3cr3t")
             ["MALFORMED_aws-secret:x"] []
           = (out, None, [CallLoadDefaultConfig])
           /\ None = nil_if_empty out
           /\ ["MALFORMED_aws-secret:x"]
              = match out with
                | [] => ["MALFORMED_aws-secret:x"]
                | _ => out
                end
           /\ (out = [] ->
               Forall (fun e => malformed e = true)
                 ["MALFORMED_aws-secret:x"])).
Proof.
  split.
  - apply (main_starts_after_resolution
             {| versionFlag := false; healthFlag := false;
                Args := ["python"; "app.py"]; Getpid := 1;
                Environ := ["DB=aws-secret:db"; "PORT=80"]; version := "dev" |}
             (world_serving "s3cr3t") None (child_ending 7 (ExitedWith 0))
             "python" ["app.py"] (Some ["DB=s3cr3t"; "PORT=80"]) true).
    vm_compute. apply list_elem_of_here.
  - apply (main_starts_after_resolution
             {| versionFlag := false; healthFlag := false;
                Args := ["env"]; Getpid := 1;
                Environ := ["MALFORMED_aws-secret:x"]; version := "dev" |}
             (world_serving "s3cr3t") None (child_ending 7 (ExitedWith 0))
             "env" [] None true).
    vm_compute. apply list_elem_of_here.
Defined.



(** ** The map the tests look at *)

Lemma envSliceToMap_loop_malformed e env m :
  malformed e = true ->
  envSliceToMap_loop (e :: env) m = envSliceToMap_loop env m.
Proof.
  intros Hm. cbn [envSliceToMap_loop].
  change (stringsCut e "=") with (strings.Cut e "=").
  rewrite (malformed_Cut e Hm). reflexivity.
Qed.

Lemma envSliceToMap_loop_well_formed env : forall m,
  envSliceToMap_loop (well_formed_entries env) m = envSliceToMap_loop env m.
Proof.
  induction env as [|e env IH]; intros m; [reflexivity|].
  cbn [well_formed_entries]. destruct (malformed e) eqn:Hm.
  - rewrite (envSliceToMap_loop_malformed e env m Hm). apply IH.
  - cbn [envSliceToMap_loop]. destruct (stringsCut e "=") as [[k v] found].
    apply IH.
Qed.

Lemma filter_well_formed env :
  filter (fun e => malformed e = false) env = well_formed_entries env.
Proof.
  induction env as [|e env IH]; [reflexivity|].
  cbn [well_formed_entries]. destruct (malformed e) eqn:Hm.
  - rewrite filter_cons_False by (rewrite Hm; discriminate). exact IH.
  - rewrite filter_cons_True by exact Hm. rewrite IH. reflexivity.
Qed.

(** X17.  [envSliceToMap], through which the tests read a result, does not
    see the entries without separator; so for an environment none of whose
    values is a reference, the map of what a successful [resolveSecrets]
    returns is the map of its input, whether the call took the fast path
    (entries without separator kept) or the loop (they are dropped). *)
Theorem envSliceToMap_hides_malformed (w : world) (env : list string)
    (h : history) (out : list string) (h' : history) :
  Forall (fun e => value_is_reference e = false) env ->
  resolveSecrets w env h = (out, None, h') ->
  envSliceToMap (well_formed_entries env) = envSliceToMap env
  /\ envSliceToMap out = envSliceToMap env.
Proof.
  intros Hplain Hrun. unfold envSliceToMap.
  split; [apply envSliceToMap_loop_well_formed|].
  destruct (resolveSecrets_cases w env h out None h' Hrun)
    as [(_ & -> & _)|[(cause & _ & _ & Habs & _)|[_ Hloop]]].
  - reflexivity.
  - discriminate Habs.
  - rewrite (resolveSecrets_loop_no_references w env Hplain []) in Hloop.
    injection Hloop as <- _. cbn [app].
    rewrite filter_well_formed. apply envSliceToMap_loop_well_formed.
Qed.

Lemma envSliceToMap_hides_malformed_witness :
  envSliceToMap
    (well_formed_entries ["MALFORMED_NO_EQUALS"; "K=see aws-secret:x"; "GOOD=value"])
  = envSliceToMap ["MALFORMED_NO_EQUALS"; "K=see aws-secret:x"; "GOOD=value"]
  /\ envSliceToMap ["K=see aws-secret:x"; "GOOD=value"]
     = envSliceToMap
         ["MALFORMED_NO_EQUALS"; "K=see aws-secret:x"; "GOOD=value"].
Proof.
  apply (envSliceToMap_hides_malformed (world_serving "s")
           ["MALFORMED_NO_EQUALS"; "K=see aws-secret:x"; "GOOD=value"] []
           ["K=see aws-secret:x"; "GOOD=value"] [CallLoadDefaultConfig]).
  - repeat constructor.
  - vm_compute. reflexivity.
Defined.
